(** * board_summary: ticket classification and recent-completion reconciliation

    A shallow embedding of [categorize_tickets] and [get_recent_done_tickets]
    of [lambda_function.py], together with the Python run-time behaviour they
    rely on: JSON values and dictionaries, subscripting that raises
    [KeyError], [==], truthiness, hashing, [<] as used by [sorted], and
    [datetime.strptime] / [strftime] for the two format strings of the source.

    Tickets are mutable dictionaries shared between the ticket list, the
    classifier's buckets and the reconciler's output, so they live in a store
    and are referred to by address.  Audit-log entries are only read and are
    plain values. *)

From Stdlib Require Import ZArith Ascii String OrdersEx.
From stdpp Require Import base option list sorting gmap strings.

Local Open Scope string_scope.
Local Open Scope list_scope.
Local Open Scope Z_scope.
#[local] Set Warnings "-register-all".

(** ** JSON values as Python sees them *)

(** What [response.json()] yields.  JSON numbers are integers here; floats
    are outside the model. *)
Inductive value : Type :=
  | VNone
  | VBool (b : bool)
  | VInt (n : Z)
  | VStr (s : string)
  | VList (xs : list value)
  | VDict (kvs : list (string * value)).

(** A Python [dict] with string keys, in insertion order. *)
Abbreviation dict := (list (string * value)).

(** [k in d] and [d.get(k)]: the first entry under key [k]. *)
Fixpoint dict_get (k : string) (d : dict) : option value :=
  match d with
  | [] => None
  | (k', v) :: d' => if String.eqb k' k then Some v else dict_get k d'
  end.

(** [d[k] = v]: overwrite in place, or add at the end. *)
Fixpoint dict_set (k : string) (v : value) (d : dict) : dict :=
  match d with
  | [] => [(k, v)]
  | (k', v') :: d' =>
      if String.eqb k' k then (k, v) :: d' else (k', v') :: dict_set k v d'
  end.

(** [del d[k]], used only to state that a field is never read. *)
Fixpoint dict_del (k : string) (d : dict) : dict :=
  match d with
  | [] => []
  | (k', v') :: d' =>
      if String.eqb k' k then dict_del k d' else (k', v') :: dict_del k d'
  end.

Definition Z_of_bool (b : bool) : Z := if b then 1 else 0.

(** Python's [a == b] on JSON values: [bool] is a subtype of [int], so
    [True == 1]; values of unrelated types are unequal; it never raises. *)
Fixpoint py_eq (a b : value) {struct a} : bool :=
  match a, b with
  | VNone, VNone => true
  | VBool x, VBool y => Bool.eqb x y
  | VBool x, VInt y => Z_of_bool x =? y
  | VInt x, VBool y => x =? Z_of_bool y
  | VInt x, VInt y => x =? y
  | VStr x, VStr y => String.eqb x y
  | VList xs, VList ys =>
      (fix all2 (xs ys : list value) {struct xs} : bool :=
         match xs, ys with
         | [], [] => true
         | x :: xs', y :: ys' => py_eq x y && all2 xs' ys'
         | _, _ => false
         end) xs ys
  | VDict xs, VDict ys =>
      Nat.eqb (length xs) (length ys) &&
      (fix all (xs : dict) {struct xs} : bool :=
         match xs with
         | [] => true
         | (k, v) :: xs' =>
             match dict_get k ys with
             | Some v' => py_eq v v'
             | None => false
             end && all xs'
         end) xs
  | _, _ => false
  end.

(** Truthiness, as tested by [if] and [and]. *)
Definition truthy (v : value) : bool :=
  match v with
  | VNone => false
  | VBool b => b
  | VInt n => negb (n =? 0)
  | VStr s => negb (String.eqb s "")
  | VList xs => negb (Nat.eqb (length xs) 0)
  | VDict kvs => negb (Nat.eqb (length kvs) 0)
  end.

Definition dict_truthy (d : dict) : bool := negb (Nat.eqb (length d) 0).

(** [hash(v)] raises [TypeError] for lists and dicts. *)
Definition hashable (v : value) : bool :=
  match v with
  | VList _ | VDict _ => false
  | _ => true
  end.

(** ** Exceptions, the store and the monad of effects *)

(** The built-in exception classes the two functions can raise.  The source
    defines no exception class of its own; [UserError] stands for any such
    class, by name. *)
Inductive exn : Type :=
  | KeyError (key : string)
  | TypeError
  | AttributeError
  | ValueError
  | UserError (name : string).

(** Addresses of ticket objects, and the store holding their fields.  An
    address outside the store reads as the empty dict. *)
Abbreviation loc := nat.
Abbreviation heap := (gmap nat (list (string * value))).

Definition M (A : Type) : Type := heap → heap * (exn + A).

#[global] Instance M_ret : MRet M := λ A x h, (h, inr x).
#[global] Instance M_bind : MBind M := λ A B f m h,
  match m h with
  | (h', inl e) => (h', inl e)
  | (h', inr x) => f x h'
  end.

Definition raise {A} (e : exn) : M A := λ h, (h, inl e).
Definition lift {A} (r : exn + A) : M A := λ h, (h, r).

(** Reading the fields of the object at [l]. *)
Definition deref (l : loc) : M dict := λ h, (h, inr (h !!! l)).

(** [obj[k] = v] on the object at [l]. *)
Definition setitem (l : loc) (k : string) (v : value) : M unit :=
  λ h, (<[l := dict_set k v (h !!! l)]> h, inr tt).

(** [d[k]]: [KeyError] when the key is missing. *)
Definition getitem (k : string) (d : dict) : M value :=
  match dict_get k d with
  | Some v => mret v
  | None => raise (KeyError k)
  end.

(** [v.get(k, default)]: only a dict has the method. *)
Definition py_get (v : value) (k : string) (default : value) : M value :=
  match v with
  | VDict d => mret (from_option id default (dict_get k d))
  | _ => raise AttributeError
  end.

(** ** [datetime.strptime] and [strftime] for the formats of the source *)

(** A string of ASCII characters only.  The strings of the model are
    sequences of bytes and stand for Python strings of ASCII characters; a
    byte from 128 on stands for no Python character. *)
Definition ascii_only (s : string) : bool :=
  forallb (λ c, (nat_of_ascii c <? 128)%nat) (list_ascii_of_string s).

(** [datetime.strptime(s, "%Y-%m-%dT%H:%M:%S.%f")] compiles the format to a
    regular expression, one group per directive, matches it at the start of
    [s] with ordered backtracking and rejects unconverted trailing text; the
    fields are then range-checked by the [datetime] constructor.

    The embedding is exact on [ascii_only] strings, where [\d] is [[0-9]].
    In Python [\d] also matches the other Unicode decimal digits and [int]
    converts them, so outside ASCII the code may parse where the model
    does not: that the code raises is concluded from a [ValueError] of the
    model for [ascii_only] strings only. *)
Module datetime.
Local Open Scope nat_scope.

Record t : Type := mk
  { year : nat; month : nat; day : nat;
    hour : nat; minute : nat; second : nat; microsecond : nat }.

Abbreviation charclass := (ascii → bool).

Definition between (lo hi : ascii) : charclass :=
  λ c, (nat_of_ascii lo <=? nat_of_ascii c) && (nat_of_ascii c <=? nat_of_ascii hi).
Definition chr (a : ascii) : charclass := Ascii.eqb a.
Definition digit : charclass := between "0" "9".

(** The groups of the compiled pattern: the alternatives of each directive
    in the order the regular expression lists them. *)
Definition re_Y : list (list charclass) := [[digit; digit; digit; digit]].
Definition re_m : list (list charclass) :=
  [[chr "1"; between "0" "2"]; [chr "0"; between "1" "9"]; [between "1" "9"]].
Definition re_d : list (list charclass) :=
  [[chr "3"; between "0" "1"]; [between "1" "2"; digit];
   [chr "0"; between "1" "9"]; [between "1" "9"]; [chr " "; between "1" "9"]].
Definition re_H : list (list charclass) :=
  [[chr "2"; between "0" "3"]; [between "0" "1"; digit]; [digit]].
Definition re_M : list (list charclass) := [[between "0" "5"; digit]; [digit]].
Definition re_S : list (list charclass) :=
  [[chr "6"; between "0" "1"]; [between "0" "5"; digit]; [digit]].
(** [[0-9]{1,6}], greedy: the longest run first. *)
Definition re_f : list (list charclass) :=
  [replicate 6 digit; replicate 5 digit; replicate 4 digit;
   replicate 3 digit; replicate 2 digit; replicate 1 digit].
Definition re_lit (a : ascii) : list (list charclass) := [[chr a]].
(** The pattern is compiled with [re.IGNORECASE]. *)
Definition re_T : list (list charclass) := [[λ c, chr "T" c || chr "t" c]].

(** The pattern of ["%Y-%m-%dT%H:%M:%S.%f"]. *)
Definition format_regex : list (list (list charclass)) :=
  [re_Y; re_lit "-"; re_m; re_lit "-"; re_d; re_T;
   re_H; re_lit ":"; re_M; re_lit ":"; re_S; re_lit "."; re_f].

Fixpoint match_classes (cs : list charclass) (s : string) : option (string * string) :=
  match cs with
  | [] => Some ("", s)
  | c :: cs' =>
      match s with
      | EmptyString => None
      | String a s' =>
          if c a then
            match match_classes cs' s' with
            | Some (m, r) => Some (String a m, r)
            | None => None
            end
          else None
      end
  end%string.

(** The matched text of every group and the unconverted rest, for the first
    way to match in the order of the alternatives. *)
Fixpoint match_groups (gs : list (list (list charclass))) (s : string)
  : option (list string * string) :=
  match gs with
  | [] => Some ([], s)
  | g :: gs' =>
      (fix try (alts : list (list charclass)) : option (list string * string) :=
         match alts with
         | [] => None
         | alt :: alts' =>
             match match_classes alt s with
             | Some (m, r) =>
                 match match_groups gs' r with
                 | Some (ms, r') => Some (m :: ms, r')
                 | None => try alts'
                 end
             | None => try alts'
             end
         end) g
  end.

(** [int(s)] for a run of digits, possibly after a blank. *)
Fixpoint int_of (acc : nat) (s : string) : nat :=
  match s with
  | EmptyString => acc
  | String c s' =>
      if digit c then int_of (10 * acc + (nat_of_ascii c - 48)) s'
      else int_of acc s'
  end.

Definition is_leap (y : nat) : bool :=
  (y mod 4 =? 0) && (negb (y mod 100 =? 0) || (y mod 400 =? 0)).

Definition days_in_month (y m : nat) : nat :=
  match m with
  | 2 => if is_leap y then 29 else 28
  | 4 | 6 | 9 | 11 => 30
  | _ => 31
  end.

(** The range checks that remain after the pattern has matched. *)
Definition valid (d : t) : bool :=
  (1 <=? year d) && (day d <=? days_in_month (year d) (month d))
  && (second d <=? 59).

Definition strptime (s : string) : exn + t :=
  match match_groups format_regex s with
  | Some ([sY; _; sm; _; sd; _; sH; _; sM; _; sS; _; sf], EmptyString) =>
      let dt := mk (int_of 0 sY) (int_of 0 sm) (int_of 0 sd)
                   (int_of 0 sH) (int_of 0 sM) (int_of 0 sS)
                   (int_of 0 (sf ++ String.concat "" (replicate (6 - String.length sf) "0"))%string) in
      if valid dt then inr dt else inl ValueError
  | _ => inl ValueError
  end.

Definition digit_chr (n : nat) : ascii := ascii_of_nat (48 + n mod 10).
Definition pad2 (n : nat) : string :=
  String (digit_chr (n / 10)) (String (digit_chr n) EmptyString).
Definition pad4 (n : nat) : string :=
  String (digit_chr (n / 1000)) (String (digit_chr (n / 100)) (pad2 n)).

Definition pad3 (n : nat) : string := String (digit_chr (n / 100)) (pad2 n).

(** [%Y]: CPython hands the format to the C library, and glibc writes the
    year without padding, so a year below 1000 has fewer than four digits
    ([datetime(999, 1, 1)] gives "999"); years are between 1 and 9999. *)
Definition fmt_Y (y : nat) : string :=
  if y <? 10 then String (digit_chr y) EmptyString
  else if y <? 100 then pad2 y
  else if y <? 1000 then pad3 y
  else pad4 y.

(** [dt.strftime("%Y-%m-%d %H:%M:%S")]: the year as [%Y] gives it, the
    other fields zero-padded to two digits. *)
Definition strftime (d : t) : string :=
  (fmt_Y (year d) ++ "-" ++ pad2 (month d) ++ "-" ++ pad2 (day d) ++ " "
   ++ pad2 (hour d) ++ ":" ++ pad2 (minute d) ++ ":" ++ pad2 (second d))%string.
End datetime.

(** [datetime.strptime(v, ...)] on a JSON value: the argument must be a
    [str]. *)
Definition strptime (v : value) : M datetime.t :=
  match v with
  | VStr s => lift (datetime.strptime s)
  | _ => raise TypeError
  end.

(** ** Ordering and [sorted] *)

(** Python's [a < b] on JSON values: numbers with numbers, strings with
    strings (by code point, which is byte order here), lists
    lexicographically; anything else raises [TypeError]. *)
Fixpoint py_lt (a b : value) {struct a} : exn + bool :=
  match a, b with
  | VBool x, VBool y => inr (Z_of_bool x <? Z_of_bool y)
  | VBool x, VInt y => inr (Z_of_bool x <? y)
  | VInt x, VBool y => inr (x <? Z_of_bool y)
  | VInt x, VInt y => inr (x <? y)
  | VStr x, VStr y => inr (String.ltb x y)
  | VList xs, VList ys =>
      (fix lex (xs ys : list value) {struct xs} : exn + bool :=
         match xs, ys with
         | [], [] => inr false
         | [], _ :: _ => inr true
         | _ :: _, [] => inr false
         | x :: xs', y :: ys' => if py_eq x y then lex xs' ys' else py_lt x y
         end) xs ys
  | _, _ => inl TypeError
  end.

(** [sorted] is a stable comparison sort that only uses [<] on the keys and
    lets a failing comparison escape.  It is modelled by insertion from the
    left: each element goes in front of the first earlier element that it is
    smaller than, which is where the binary insertion of CPython puts it. *)
Fixpoint insort (x : value * loc) (l : list (value * loc)) : exn + list (value * loc) :=
  match l with
  | [] => inr [x]
  | y :: l' =>
      match py_lt x.1 y.1 with
      | inl e => inl e
      | inr true => inr (x :: y :: l')
      | inr false =>
          match insort x l' with
          | inl e => inl e
          | inr r => inr (y :: r)
          end
      end
  end.

Fixpoint sort_into (acc l : list (value * loc)) : exn + list (value * loc) :=
  match l with
  | [] => inr acc
  | x :: l' =>
      match insort x acc with
      | inl e => inl e
      | inr acc' => sort_into acc' l'
      end
  end.

(** The key function [lambda x: x.get("start_date", "")]. *)
Definition start_date_key (d : dict) : value :=
  from_option id (VStr "") (dict_get "start_date" d).

(** [sorted(tickets_list, key=lambda x: x.get("start_date", ""))]: the keys
    are computed first, one per element. *)
Definition sorted_by_start_date (tickets_list : list loc) : M (list loc) :=
  keyed ← mapM (λ x, d ← deref x; mret (start_date_key d, x)) tickets_list;
  r ← lift (sort_into [] keyed);
  mret (r.*2).

(** ** The ticket classifier *)

(** [tickets_summary]: a dict from status key to list of tickets, in
    insertion order. *)
Abbreviation summary := (list (string * list nat)).

Definition tickets_summary_init : summary :=
  [("open", []); ("blocked", []); ("in_progress", []);
   ("in_review", []); ("done", [])].

(** [status in tickets_summary] for a string. *)
Definition summary_has (status : string) (ts : summary) : bool :=
  existsb (λ kv, String.eqb kv.1 status) ts.

(** [tickets_summary[status].append(ticket)]. *)
Definition summary_append (status : string) (ticket : loc) (ts : summary) : summary :=
  map (λ kv, if String.eqb kv.1 status then (kv.1, kv.2 ++ [ticket]) else kv) ts.

(** [tickets_summary[status]], the empty list standing for a missing key. *)
Definition summary_get (status : string) (ts : summary) : list loc :=
  from_option snd [] (find (λ kv, String.eqb kv.1 status) ts).

(** A loop [for x in xs: acc = body(acc, x)]. *)
Fixpoint foldM {A B} (body : A → B → M A) (acc : A) (xs : list B) : M A :=
  match xs with
  | [] => mret acc
  | x :: xs' => acc' ← body acc x; foldM body acc' xs'
  end.

(** The body of the first loop of [categorize_tickets]; the state is the
    pair of [tickets_summary] and [risks]. *)
Definition categorize_ticket (acc : summary * list loc) (ticket : loc)
  : M (summary * list loc) :=
  d ← deref ticket;
  ty ← getitem "type" d;
  if py_eq ty (VStr "Risk") then mret (acc.1, acc.2 ++ [ticket])
  else
    status ← getitem "status" d;
    match status with
    | VList _ | VDict _ => raise TypeError
    | VStr s =>
        if summary_has s acc.1 then mret (summary_append s ticket acc.1, acc.2)
        else mret acc
    | _ => mret acc
    end.

(** The second loop: every bucket is replaced by its sorted copy, under the
    same key. *)
Definition sort_buckets (ts : summary) : M summary :=
  mapM (λ kv, l ← sorted_by_start_date kv.2; mret (kv.1, l)) ts.

Definition categorize_tickets (tickets : list loc) : M (summary * list loc) :=
  acc ← foldM categorize_ticket (tickets_summary_init, []) tickets;
  ts ← sort_buckets acc.1;
  mret (ts, acc.2).

(** ** The completion reconciler *)

(** The condition of the [if] in the loop of [get_recent_done_tickets]:
    [log["action"] == "update" and log["changes"] and
     log["changes"].get("status", {}).get("new_value") == "DONE"]. *)
Definition marks_done (log : dict) : M bool :=
  action ← getitem "action" log;
  if py_eq action (VStr "update") then
    changes ← getitem "changes" log;
    if truthy changes then
      changes ← getitem "changes" log;
      delta ← py_get changes "status" (VDict []);
      new_value ← py_get delta "new_value" VNone;
      mret (py_eq new_value (VStr "DONE"))
    else mret false
  else mret false.

(** [next((t for t in tickets if t["id"] == ticket_id), None)]. *)
Fixpoint find_ticket (ticket_id : value) (tickets : list loc) : M (option loc) :=
  match tickets with
  | [] => mret None
  | t :: tickets' =>
      d ← deref t;
      i ← getitem "id" d;
      if py_eq i ticket_id then mret (Some t) else find_ticket ticket_id tickets'
  end.

(** The body of the loop; the state is [recent_done_tickets]. *)
Definition reconcile_log (tickets : list loc) (recent : list loc) (log : dict)
  : M (list loc) :=
  qualifies ← marks_done log;
  if (qualifies : bool) then
    ticket_id ← getitem "auditable_id" log;
    found ← find_ticket ticket_id tickets;
    match found with
    | None => mret recent
    | Some ticket =>
        d ← deref ticket;
        if dict_truthy d then
          created_at ← getitem "created_at" log;
          dt ← strptime created_at;
          _ ← setitem ticket "completion_date" (VStr (datetime.strftime dt));
          mret (recent ++ [ticket])
        else mret recent
    end
  else mret recent.

Definition get_recent_done_tickets (audit_logs : list dict) (tickets : list loc)
  : M (list loc) :=
  foldM (reconcile_log tickets) [] audit_logs.

(** ** The scenario of the test suite *)

Definition ticket58 : dict :=
  [("id", VInt 58); ("status", VStr "in_progress"); ("type", VStr "Activity");
   ("start_date", VStr "2024-11-28")].
Definition ticket59 : dict :=
  [("id", VInt 59); ("status", VStr "done"); ("type", VStr "Activity");
   ("start_date", VStr "2024-11-28")].
Definition heap0 : heap := <[1%nat := ticket59]> (<[0%nat := ticket58]> ∅).
Definition log59 : dict :=
  [("auditable_id", VInt 59); ("action", VStr "update");
   ("changes", VDict [("status", VDict [("new_value", VStr "DONE")])]);
   ("created_at", VStr "2024-11-20T10:00:00.0")].

(** ** Vocabulary for the reconciler *)

(** [action == "update"]. *)
Definition is_update (log : dict) : Prop :=
  dict_get "action" log = Some (VStr "update").

(** The changes carry a status delta whose new value is the done marker. *)
Definition status_becomes_done (log : dict) : Prop :=
  ∃ changes delta,
    dict_get "changes" log = Some (VDict changes) ∧
    dict_get "status" changes = Some (VDict delta) ∧
    dict_get "new_value" delta = Some (VStr "DONE").

(** The ticket at [t] carries an id equal to [v]. *)
Definition has_id (h : heap) (v : value) (t : loc) : bool :=
  match dict_get "id" (h !!! t) with
  | Some i => py_eq i v
  | None => false
  end.

(** Every ticket of the list carries an id, as the handlers require before
    they fetch the audit logs. *)
Definition tickets_have_ids (h : heap) (tickets : list loc) : Prop :=
  Forall (λ t, is_Some (dict_get "id" (h !!! t))) tickets.

(** The ticket an entry reconciles to, if any: the first ticket of the list
    whose id equals the entry's [auditable_id], for an entry that is an
    update to done. *)
Definition reconciled (h : heap) (tickets : list loc) (log : dict) : option loc :=
  match dict_get "action" log, dict_get "changes" log, dict_get "auditable_id" log with
  | Some (VStr action), Some (VDict changes), Some aid =>
      match dict_get "status" changes with
      | Some (VDict delta) =>
          match dict_get "new_value" delta with
          | Some (VStr new_value) =>
              if String.eqb action "update" && String.eqb new_value "DONE"
              then find (has_id h aid) tickets
              else None
          | _ => None
          end
      | _ => None
      end
  | _, _, _ => None
  end.

(** The completion date an entry carries: its [created_at], parsed and
    formatted again. *)
Definition completion_of (log : dict) : option string :=
  match dict_get "created_at" log with
  | Some (VStr s) =>
      match datetime.strptime s with
      | inr dt => Some (datetime.strftime dt)
      | inl _ => None
      end
  | _ => None
  end.

(** The write an entry contributes: the ticket it reconciles to and the
    date. *)
Definition contribution (h : heap) (tickets : list loc) (log : dict)
  : option (loc * string) :=
  t ← reconciled h tickets log; s ← completion_of log; Some (t, s).

(** Two stores whose tickets carry the same ids. *)
Definition same_ids (h h' : heap) : Prop :=
  ∀ t : loc, dict_get "id" (h !!! t) = dict_get "id" (h' !!! t).

(** What the loop body does with one entry on store [h]: an exception,
    nothing, or a ticket together with the completion date written to it. *)
Definition step_of (h : heap) (tickets : list loc) (log : dict)
  : exn + option (loc * string) :=
  match (marks_done log h).2 with
  | inl e => inl e
  | inr false => inr None
  | inr true =>
      match dict_get "auditable_id" log with
      | None => inl (KeyError "auditable_id")
      | Some aid =>
          match (find_ticket aid tickets h).2 with
          | inl e => inl e
          | inr None => inr None
          | inr (Some t) =>
              match dict_get "created_at" log with
              | None => inl (KeyError "created_at")
              | Some c =>
                  match (strptime c h).2 with
                  | inl e => inl e
                  | inr dt => inr (Some (t, datetime.strftime dt))
                  end
              end
          end
      end
  end.

(** The writes of a whole run, up to its first exception if there is one. *)
Fixpoint plan (h : heap) (tickets : list loc) (logs : list dict)
  : list (loc * string) * option exn :=
  match logs with
  | [] => ([], None)
  | log :: logs' =>
      match step_of h tickets log with
      | inl e => ([], Some e)
      | inr None => plan h tickets logs'
      | inr (Some c) => (c :: (plan h tickets logs').1, (plan h tickets logs').2)
      end
  end.

Definition write_date (h : heap) (c : loc * string) : heap :=
  <[c.1 := dict_set "completion_date" (VStr c.2) (h !!! c.1)]> h.

Definition commit (cs : list (loc * string)) (h : heap) : heap :=
  foldl write_date h cs.

(** The last date written to [t] by a sequence of writes. *)
Definition last_write (t : loc) (cs : list (loc * string)) : option string :=
  snd <$> last (filter (λ c, c.1 = t) cs).

(** Further audit-log entries for the scenario: one naming a ticket that is
    not in the list, one whose [created_at] is not in the format, and a
    second completion of ticket 59. *)
Definition log999 : dict :=
  [("auditable_id", VInt 999); ("action", VStr "update");
   ("changes", VDict [("status", VDict [("new_value", VStr "DONE")])]);
   ("created_at", VStr "2024-11-20T10:00:00.0")].
Definition log59_malformed : dict :=
  [("auditable_id", VInt 59); ("action", VStr "update");
   ("changes", VDict [("status", VDict [("new_value", VStr "DONE")])]);
   ("created_at", VStr "2024-11-20 10:00:00")].
Definition log59_again : dict :=
  [("auditable_id", VInt 59); ("action", VStr "update");
   ("changes", VDict [("status", VDict [("new_value", VStr "DONE")])]);
   ("created_at", VStr "2024-11-21T08:30:00.250")].
Definition log58 : dict :=
  [("auditable_id", VInt 58); ("action", VStr "update");
   ("changes", VDict [("status", VDict [("new_value", VStr "DONE")])]);
   ("created_at", VStr "2024-11-19T09:15:00.000001")].

(** ** Vocabulary for the classifier *)

(** The five status keys of [tickets_summary], in insertion order. *)
Definition status_keys : list string :=
  ["open"; "blocked"; "in_progress"; "in_review"; "done"].

(** [type == "Risk"]. *)
Definition is_risk (h : heap) (t : loc) : bool :=
  match dict_get "type" (h !!! t) with
  | Some ty => py_eq ty (VStr "Risk")
  | None => false
  end.

(** The ticket's status is the string [k]. *)
Definition has_status (h : heap) (k : string) (t : loc) : bool :=
  match dict_get "status" (h !!! t) with
  | Some (VStr s) => String.eqb s k
  | _ => false
  end.

(** The ticket's status is one of the five keys. *)
Definition recognized (h : heap) (t : loc) : bool :=
  existsb (λ k, has_status h k t) status_keys.

(** The ticket belongs in bucket [k]: it is not a risk and its status is
    [k]. *)
Definition in_bucket (h : heap) (k : string) (t : loc) : bool :=
  negb (is_risk h t) && has_status h k t.

(** The start date a ticket is sorted by, for tickets whose [start_date] is
    a string or missing. *)
Definition date_of (h : heap) (t : loc) : string :=
  match start_date_key (h !!! t) with
  | VStr s => s
  | _ => ""
  end.

(** Stable insertion sort on string keys: what [insort] and [sort_into]
    compute when every key is a string. *)
Fixpoint insort_str (x : string * loc) (l : list (string * loc)) : list (string * loc) :=
  match l with
  | [] => [x]
  | y :: l' => if String.ltb x.1 y.1 then x :: y :: l' else y :: insort_str x l'
  end.

Fixpoint sort_into_str (acc l : list (string * loc)) : list (string * loc) :=
  match l with
  | [] => acc
  | x :: l' => sort_into_str (insort_str x acc) l'
  end.

Definition tag (p : string * loc) : value * loc := (VStr p.1, p.2).

(** The list [sorted] works on, each ticket under its key, and what
    [sorted] returns for it. *)
Definition keyed (h : heap) (l : list loc) : list (value * loc) :=
  (λ x, (start_date_key (h !!! x), x)) <$> l.

Definition sorted_of (h : heap) (l : list loc) : exn + list loc :=
  match sort_into [] (keyed h l) with
  | inl e => inl e
  | inr r => inr r.*2
  end.

(** What one pass of the first loop adds for ticket [t]: the ticket goes to
    the risks, or to the bucket of its status, or nowhere. *)
Definition place (h : heap) (t : loc) (acc : summary * list loc) : summary * list loc :=
  (map (λ kv, (kv.1, kv.2 ++ filter (in_bucket h kv.1) [t])) acc.1,
   acc.2 ++ filter (is_risk h) [t]).

(** A ticket the first loop cannot classify: it has no type, or it is not a
    risk and has no status. *)
Definition missing_required (h : heap) (t : loc) : Prop :=
  dict_get "type" (h !!! t) = None ∨
  (is_risk h t = false ∧ dict_get "status" (h !!! t) = None).

(** The key that a ticket missing a required field lacks: the type is looked
    up first. *)
Definition missing_key (h : heap) (t : loc) : string :=
  match dict_get "type" (h !!! t) with
  | None => "type"
  | Some _ => "status"
  end.

(** A ticket that is not a risk and whose status is a list or a dict, for
    which [status in tickets_summary] raises [TypeError]. *)
Definition unhashable_status (h : heap) (t : loc) : bool :=
  negb (is_risk h t) &&
  match dict_get "status" (h !!! t) with
  | Some st => negb (hashable st)
  | None => false
  end.

(** A ticket the first loop classifies: it has a type and, unless it is a
    risk, a hashable status. *)
Definition classifiable (h : heap) (t : loc) : Prop :=
  is_Some (dict_get "type" (h !!! t)) ∧
  (is_risk h t = false →
   ∃ st, dict_get "status" (h !!! t) = Some st ∧ hashable st = true).

(** What the first loop adds for a whole list. *)
Definition placed (h : heap) (tickets : list loc) (acc : summary * list loc)
  : summary * list loc :=
  (map (λ kv, (kv.1, kv.2 ++ filter (in_bucket h kv.1) tickets)) acc.1,
   acc.2 ++ filter (is_risk h) tickets).

(** The order of the buckets: by start date, a missing one counting as the
    empty string. *)
Definition date_le (h : heap) (a b : loc) : Prop :=
  String.leb (date_of h a) (date_of h b) = true.

(** The start date of a ticket, where there is one, is a string. *)
Definition start_date_is_str (h : heap) (t : loc) : Prop :=
  ∃ s, start_date_key (h !!! t) = VStr s.

(** Two stores that agree on everything the classifier looks at: the type
    of every ticket, the status of the tickets that are not risks, and the
    start dates. *)
Definition cat_agree (h h2 : heap) : Prop :=
  ∀ t : loc,
    dict_get "type" (h !!! t) = dict_get "type" (h2 !!! t) ∧
    (is_risk h t = false →
     dict_get "status" (h !!! t) = dict_get "status" (h2 !!! t)) ∧
    start_date_key (h !!! t) = start_date_key (h2 !!! t).

(** Tickets for the classifier's scenarios: one without a type, an ordinary
    one without a status, and a risk without a status. *)
Definition ticket_no_type : dict := [("id", VInt 1); ("status", VStr "open")].
Definition ticket_no_status : dict := [("id", VInt 2); ("type", VStr "Activity")].
Definition risk_no_status : dict := [("id", VInt 3); ("type", VStr "Risk")].
Definition heap1 : heap :=
  <[4%nat := risk_no_status]> (<[3%nat := ticket_no_status]>
    (<[2%nat := ticket_no_type]> heap0)).

(** A board for the ordering scenario: four tickets in progress, one
    without a start date and two with the same one, and a risk. *)
Definition heap2 : heap :=
  <[14%nat := [("id", VInt 14); ("type", VStr "Risk"); ("status", VStr "in_progress")]]>
  (<[13%nat := [("id", VInt 13); ("type", VStr "Bug"); ("status", VStr "in_progress");
                ("start_date", VStr "2024-11-28")]]>
  (<[12%nat := [("id", VInt 12); ("type", VStr "Bug"); ("status", VStr "in_progress");
                ("start_date", VStr "2024-11-28")]]>
  (<[11%nat := [("id", VInt 11); ("type", VStr "Bug"); ("status", VStr "in_progress")]]>
  (<[10%nat := [("id", VInt 10); ("type", VStr "Bug"); ("status", VStr "in_progress");
                ("start_date", VStr "2024-12-01")]]> ∅)))).

(** Entries that the condition of the loop rejects before looking at
    anything else, and entries whose changes have a shape it cannot read. *)
Definition log_created : dict := [("action", VStr "create")].
Definition log_no_changes : dict := [("action", VStr "update"); ("changes", VNone)].
Definition log_null_status : dict :=
  [("auditable_id", VInt 59); ("action", VStr "update");
   ("changes", VDict [("status", VNone)]);
   ("created_at", VStr "2024-11-20T10:00:00.0")].

(** A start date no other value can be compared with: [None < x] and
    [{} < x] raise for every [x]. *)
Definition unorderable (v : value) : bool :=
  match v with
  | VNone | VDict _ => true
  | _ => false
  end.

(** A board with two open tickets, one of them with a null start date. *)
Definition heap3 : heap :=
  <[21%nat := [("id", VInt 21); ("type", VStr "Bug"); ("status", VStr "open");
               ("start_date", VNone)]]>
  (<[20%nat := [("id", VInt 20); ("type", VStr "Bug"); ("status", VStr "open");
                ("start_date", VStr "2024-11-28")]]> ∅).

(** ** Dates: comparison and subtraction of whole days *)

Module timedelta.
Local Open Scope nat_scope.

(** The fields of a naive [datetime] in the order in which two of them are
    compared. *)
Definition fields (d : datetime.t) : list nat :=
  [datetime.year d; datetime.month d; datetime.day d; datetime.hour d;
   datetime.minute d; datetime.second d; datetime.microsecond d].

Fixpoint compare (xs ys : list nat) : comparison :=
  match xs, ys with
  | [], [] => Eq
  | [], _ :: _ => Lt
  | _ :: _, [] => Gt
  | x :: xs', y :: ys' =>
      match x ?= y with
      | Eq => compare xs' ys'
      | c => c
      end
  end.

(** [a >= b]. *)
Definition ge (a b : datetime.t) : bool :=
  match compare (fields a) (fields b) with
  | Lt => false
  | _ => true
  end.

(** The same time on the day before; there is none before 0001-01-01. *)
Definition yesterday (d : datetime.t) : option datetime.t :=
  let y := datetime.year d in
  let m := datetime.month d in
  let time := λ y' m' d',
    datetime.mk y' m' d' (datetime.hour d) (datetime.minute d)
                (datetime.second d) (datetime.microsecond d) in
  if 1 <? datetime.day d then Some (time y m (datetime.day d - 1))
  else if 1 <? m then Some (time y (m - 1) (datetime.days_in_month y (m - 1)))
  else if 1 <? y then Some (time (y - 1) 12 31)
  else None.

(** [d - timedelta(days=n)] for [n >= 0]; [None] is Python's
    [OverflowError]. *)
Fixpoint minus_days (d : datetime.t) (n : nat) : option datetime.t :=
  match n with
  | 0 => Some d
  | S n' =>
      match yesterday d with
      | Some d' => minus_days d' n'
      | None => None
      end
  end.
End timedelta.

(** ** Fetching the audit log *)

(** What one [requests.get] of [fetch_audit_logs] comes to: [Failed] when
    the request, [raise_for_status] or the decoding of the body raises a
    [requests.RequestException], otherwise the decoded body. *)
Inductive response : Type :=
  | Failed
  | Json (body : value).

(** The exceptions met in [fetch_audit_logs]: the two that are not among
    those of the pure functions, and those. *)
Inductive fetch_exn : Type :=
  | RequestException
  | OverflowError
  | Builtin (e : exn).

(** [body.get("rows", [])]. *)
Definition rows (body : value) : exn + value :=
  match body with
  | VDict d => inr (from_option id (VList []) (dict_get "rows" d))
  | _ => inl AttributeError
  end.

(** What [for log in logs] yields: the items of a list, the keys of a dict,
    the characters of a string; the other values are not iterable. *)
Definition iter (logs : value) : exn + list value :=
  match logs with
  | VList xs => inr xs
  | VDict kvs => inr ((λ kv, VStr kv.1) <$> kvs)
  | VStr s => inr ((λ c, VStr (String c EmptyString)) <$> list_ascii_of_string s)
  | _ => inl TypeError
  end.

(** [datetime.strptime(log["created_at"], "%Y-%m-%dT%H:%M:%S.%f")]: only a
    dict can be subscripted by a string. *)
Definition created_at_of (log : value) : exn + datetime.t :=
  match log with
  | VDict d =>
      match dict_get "created_at" d with
      | Some (VStr s) => datetime.strptime s
      | Some _ => inl TypeError
      | None => inl (KeyError "created_at")
      end
  | _ => inl TypeError
  end.

(** The comprehension
    [[log for log in logs if strptime(log["created_at"], ...) >= start_date]]:
    every row is parsed, in order, and the first failure escapes. *)
Fixpoint recent_rows (start_date : datetime.t) (logs : list value) : exn + list dict :=
  match logs with
  | [] => inr []
  | log :: logs' =>
      match log with
      | VDict d =>
          match created_at_of log with
          | inl e => inl e
          | inr dt =>
              match recent_rows start_date logs' with
              | inl e => inl e
              | inr r => inr (if timedelta.ge dt start_date then d :: r else r)
              end
          end
      | _ => inl TypeError
      end
  end.

(** The rows of one response that fall in the window. *)
Definition recent_of (start_date : datetime.t) (body : value) : exn + list dict :=
  match rows body with
  | inl e => inl e
  | inr logs =>
      match iter logs with
      | inl e => inl e
      | inr logs => recent_rows start_date logs
      end
  end.

Section network.
(** The network: a state, and the request for the audit log of one
    auditable id. *)
Variable net : Type.
Variable requests_get : value → net → net * response.

(** The loop over [auditable_ids]; [recent_logs] is the list built so far. *)
Fixpoint fetch_loop (start_date : datetime.t) (recent_logs : list dict)
    (auditable_ids : list value) (n : net) : net * (fetch_exn + list dict) :=
  match auditable_ids with
  | [] => (n, inr recent_logs)
  | auditable_id :: auditable_ids' =>
      match requests_get auditable_id n with
      | (n', Failed) => (n', inl RequestException)
      | (n', Json body) =>
          match recent_of start_date body with
          | inl e => (n', inl (Builtin e))
          | inr logs => fetch_loop start_date (recent_logs ++ logs) auditable_ids' n'
          end
      end
  end.

(** [CarrierClient.fetch_audit_logs] at the clock reading [now], for a
    window of [days >= 0] days: [except requests.RequestException] turns a
    failed request into the empty list. *)
Definition fetch_audit_logs (now : datetime.t) (days : nat)
    (auditable_ids : list value) (n : net) : net * (fetch_exn + list dict) :=
  match timedelta.minus_days now days with
  | None => (n, inl OverflowError)
  | Some start_date =>
      match fetch_loop start_date [] auditable_ids n with
      | (n', inl RequestException) => (n', inr [])
      | r => r
      end
  end.

(** The responses the network gives to the requests for [auditable_ids],
    one after the other. *)
Fixpoint responses (auditable_ids : list value) (n : net) : list response :=
  match auditable_ids with
  | [] => []
  | auditable_id :: auditable_ids' =>
      (requests_get auditable_id n).2
      :: responses auditable_ids' (requests_get auditable_id n).1
  end.
End network.

Arguments fetch_loop {net} requests_get start_date recent_logs auditable_ids n.
Arguments fetch_audit_logs {net} requests_get now days auditable_ids n.
Arguments responses {net} requests_get auditable_ids n.

(** Whether a fetched entry is at or after [start_date]. *)
Definition in_window (start_date : datetime.t) (log : dict) : bool :=
  match created_at_of (VDict log) with
  | inr dt => timedelta.ge dt start_date
  | inl _ => false
  end.

(** A network that answers from a script, whatever is asked, and fails when
    the script is used up. *)
Definition replay (auditable_id : value) (script : list response)
  : list response * response :=
  match script with
  | [] => ([], Failed)
  | r :: script' => (script', r)
  end.

(** A clock reading, and an audit log around it. *)
Definition now0 : datetime.t := datetime.mk 2024 11 22 12 0 0 0.

Definition log59_old : dict :=
  [("action", VStr "update"); ("auditable_id", VInt 59);
   ("changes", VDict [("status", VDict [("old_value", VStr "OPEN");
                                         ("new_value", VStr "DONE")])]);
   ("created_at", VStr "2024-11-02T10:00:00.000000")].

Definition body_of (logs : list dict) : value :=
  VDict [("total", VInt (Z.of_nat (length logs))); ("rows", VList (VDict <$> logs))].

(** ** What the handlers compute from the event *)

(** [s.split(sep)] for a separator of one character: the pieces between the
    separators, empty pieces included. *)
Fixpoint str_split (sep : ascii) (s : string) : list string :=
  match s with
  | EmptyString => [EmptyString]
  | String c s' =>
      if Ascii.eqb c sep then EmptyString :: str_split sep s'
      else
        match str_split sep s' with
        | p :: ps => String c p :: ps
        | [] => [String c EmptyString]
        end
  end.

(** [v.split(",")] on a JSON value: only a [str] has the method. *)
Definition py_split (v : value) : exn + list string :=
  match v with
  | VStr s => inr (str_split "," s)
  | _ => inl AttributeError
  end.

(** [event.get(k, default)]. *)
Definition event_get (event : dict) (k : string) (default : value) : value :=
  from_option id default (dict_get k event).

(** [CarrierClient.__init__]: the attributes of the new client. *)
Definition CarrierClient_init (base_url token : value) : exn + value * value :=
  if negb (truthy base_url) then inl ValueError
  else if negb (truthy token) then inl ValueError
  else inr (base_url, token).

Definition required_keys : list string :=
  ["smtp_host"; "smtp_port"; "smtp_sender"; "smtp_user"; "smtp_password";
   "smtp_email_recipients"].

(** [EmailNotifier.__init__]: the settings are kept as they are given. *)
Definition EmailNotifier_init (smtp_settings : dict) : exn + dict :=
  if forallb (λ key, bool_decide (is_Some (dict_get key smtp_settings))) required_keys
  then inr smtp_settings
  else inl ValueError.

(** The dict literal [smtp_settings] of the two handlers. *)
Definition smtp_settings (host port sender user password : value)
    (recipients : list string) : dict :=
  [("smtp_host", host); ("smtp_port", port); ("smtp_sender", sender);
   ("smtp_user", user); ("smtp_password", password);
   ("smtp_email_recipients", VList (VStr <$> recipients))].

(** The first lines of a handler, up to the construction of the client, with
    the settings it builds later from the same values.  [default] gives the
    second argument of each [event.get]. *)
Definition handler_prelude (default : string → value) (event : dict)
  : exn + (value * value) * dict :=
  let get := λ k, event_get event k (default k) in
  match py_split (get "recipients") with
  | inl e => inl e
  | inr recipients =>
      match CarrierClient_init (get "base_url") (get "token") with
      | inl e => inl e
      | inr carrier_client =>
          inr (carrier_client,
               smtp_settings (get "host") (get "port") (get "sender") (get "user")
                             (get "passwd") recipients)
      end
  end.

(** [lambda_handler]: every [event.get] without a default. *)
Definition lambda_handler_prelude : dict → exn + (value * value) * dict :=
  handler_prelude (λ _, VNone).

(** [handler_local]: the defaults of the source. *)
Definition handler_local_defaults (k : string) : value :=
  if String.eqb k "base_url" then VStr "https://api.example.com"
  else if String.eqb k "token" then VStr "your_token_here"
  else if String.eqb k "project_id" then VStr "your_project_id_here"
  else if String.eqb k "board_id" then VStr "your_board_id_here"
  else if String.eqb k "host" then VStr "smtp.example.com"
  else if String.eqb k "port" then VInt 465
  else if String.eqb k "user" then VStr "your_user_here"
  else if String.eqb k "passwd" then VStr "your_password_here"
  else if String.eqb k "sender" then VStr "sender@example.com"
  else if String.eqb k "recipients" then VStr "recipient@example.com"
  else VNone.

Definition handler_local_prelude : dict → exn + (value * value) * dict :=
  handler_prelude handler_local_defaults.

(** The event of the unit tests. *)
Definition event0 : dict :=
  [("token", VStr "token"); ("base_url", VStr "https://api.example.com");
   ("project_id", VStr "61"); ("host", VStr "smtp.example.com");
   ("port", VInt 465); ("user", VStr "user@example.com");
   ("passwd", VStr "password"); ("sender", VStr "sender@example.com");
   ("board_id", VStr "8"); ("recipients", VStr "recipient@example.com")].

(** * Properties *)

(** ** Dictionaries *)

Lemma dict_get_set_eq k v d : dict_get k (dict_set k v d) = Some v.
Proof.
  induction d as [|[k' v'] d IH]; simpl.
  - by rewrite String.eqb_refl.
  - destruct (String.eqb k' k) eqn:E; simpl.
    + by rewrite String.eqb_refl.
    + by rewrite E.
Qed.

Lemma dict_get_set_ne k k' v d : k ≠ k' → dict_get k' (dict_set k v d) = dict_get k' d.
Proof.
  intros Hne. induction d as [|[k0 v0] d IH]; simpl.
  - by apply String.eqb_neq in Hne as ->.
  - destruct (String.eqb k0 k) eqn:E; simpl.
    + apply String.eqb_eq in E as ->. by apply String.eqb_neq in Hne as ->.
    + by rewrite IH.
Qed.

Lemma dict_set_set k v w d : dict_set k v (dict_set k w d) = dict_set k v d.
Proof.
  induction d as [|[k' v'] d IH]; simpl.
  - by rewrite String.eqb_refl.
  - destruct (String.eqb k' k) eqn:E; simpl.
    + by rewrite String.eqb_refl.
    + by rewrite E, IH.
Qed.


Lemma dict_get_del_eq k d : dict_get k (dict_del k d) = None.
Proof.
  induction d as [|[k0 v0] d IH]; simpl; [done|].
  destruct (String.eqb k0 k) eqn:E; simpl; [done|]. by rewrite E.
Qed.

Lemma dict_get_truthy k d v : dict_get k d = Some v → dict_truthy d = true.
Proof. by destruct d. Qed.

(** Only the string itself is [==] to a string. *)
Lemma py_eq_str v s : py_eq v (VStr s) = true ↔ v = VStr s.
Proof.
  destruct v; simpl; try (split; [done|by inversion 1]).
  rewrite String.eqb_eq. split; [by intros ->|by inversion 1].
Qed.

(** ** The monad *)

Lemma run_bind {A B} (m : M A) (k : A → M B) h :
  (x ← m; k x) h =
  match m h with
  | (h', inl e) => (h', inl e)
  | (h', inr x) => k x h'
  end.
Proof. done. Qed.

Lemma foldM_app {A B} (body : A → B → M A) acc xs ys h :
  foldM body acc (xs ++ ys) h =
  match foldM body acc xs h with
  | (h', inl e) => (h', inl e)
  | (h', inr acc') => foldM body acc' ys h'
  end.
Proof.
  revert acc h. induction xs as [|x xs IH]; intros acc h; simpl; [done|].
  rewrite !run_bind. destruct (body acc x h) as [h1 [e|acc1]]; [done|]. apply IH.
Qed.

(** ** The reconciler *)

Ltac munfold :=
  unfold getitem, py_get, strptime, deref, setitem, raise, lift in *;
  unfold mbind, M_bind, mret, M_ret in *; simpl in *.

Lemma marks_done_heap log h : (marks_done log h).1 = h.
Proof. unfold marks_done. munfold. repeat case_match; simplify_eq/=; done. Qed.

Lemma marks_done_ext log h h' : (marks_done log h).2 = (marks_done log h').2.
Proof. unfold marks_done. munfold. repeat case_match; simplify_eq/=; congruence. Qed.

Lemma marks_done_true log h :
  (marks_done log h).2 = inr true ↔ is_update log ∧ status_becomes_done log.
Proof.
  unfold marks_done, is_update, status_becomes_done. munfold. split.
  - intros H. repeat case_match; simplify_eq/=;
      repeat match goal with
             | H : py_eq _ (VStr _) = true |- _ => apply py_eq_str in H; subst
             end; try done.
    split; [done|].
    destruct (dict_get "status" _) eqn:Hs; simplify_eq/=.
    destruct (dict_get "new_value" _) eqn:Hn; simplify_eq/=. eauto 10.
  - intros [-> (c & d & -> & Hs & Hn)]. simpl.
    assert (negb (length c =? 0)%nat = true) as -> by (by destruct c).
    rewrite Hs. simpl. by rewrite Hn.
Qed.

Lemma find_ticket_heap aid ts h : (find_ticket aid ts h).1 = h.
Proof.
  induction ts as [|t ts IH]; simpl; [done|]. munfold.
  destruct (dict_get "id" (h !!! t)); simpl; [|done]. by case_match.
Qed.

Lemma find_ticket_ext aid ts h h' :
  same_ids h h' → (find_ticket aid ts h).2 = (find_ticket aid ts h').2.
Proof.
  intros Hid. induction ts as [|t ts IH]; simpl; [done|]. munfold.
  rewrite <-(Hid t). destruct (dict_get "id" (h !!! t)); simpl; [|done].
  by case_match.
Qed.

(** A search that returns has found what a plain [find] finds. *)
Lemma find_ticket_find aid ts h r :
  (find_ticket aid ts h).2 = inr r → find (has_id h aid) ts = r.
Proof.
  induction ts as [|t ts IH]; simpl.
  - by intros [= <-].
  - munfold. unfold has_id at 1.
    destruct (dict_get "id" (h !!! t)); simpl; [|done].
    case_match; [by intros [= <-]|done].
Qed.

Lemma find_ticket_have_ids aid ts h :
  tickets_have_ids h ts → (find_ticket aid ts h).2 = inr (find (has_id h aid) ts).
Proof.
  induction 1 as [|t ts [i Hi] _ IH]; simpl; [done|]. munfold.
  unfold has_id at 1. rewrite Hi. simpl. by case_match.
Qed.

Lemma find_has_id_truthy aid ts h t :
  find (has_id h aid) ts = Some t → dict_truthy (h !!! t) = true.
Proof.
  intros [_ H]%find_some. unfold has_id in H.
  destruct (dict_get "id" (h !!! t)) eqn:E; [|done]. by eapply dict_get_truthy.
Qed.

Lemma same_ids_write h c : same_ids h (write_date h c).
Proof.
  intros t. unfold write_date. destruct (decide (c.1 = t)) as [<-|Hne].
  - by rewrite lookup_total_insert_eq, dict_get_set_ne.
  - by rewrite lookup_total_insert_ne.
Qed.

Lemma same_ids_trans h1 h2 h3 : same_ids h1 h2 → same_ids h2 h3 → same_ids h1 h3.
Proof. intros H1 H2 t. by rewrite H1. Qed.

Lemma same_ids_sym h1 h2 : same_ids h1 h2 → same_ids h2 h1.
Proof. intros H t. by rewrite H. Qed.

Lemma same_ids_commit cs h : same_ids h (commit cs h).
Proof.
  revert h. induction cs as [|c cs IH]; intros h; [done|]. simpl.
  eapply same_ids_trans; [apply same_ids_write|apply IH].
Qed.

Lemma has_id_ext h h' aid t : same_ids h h' → has_id h aid t = has_id h' aid t.
Proof. intros H. unfold has_id. by rewrite H. Qed.

Lemma step_of_ext h h' tickets log :
  same_ids h h' → step_of h tickets log = step_of h' tickets log.
Proof.
  intros Hid. unfold step_of.
  rewrite (marks_done_ext log h h'). destruct (marks_done log h').2 as [|[|]]; try done.
  destruct (dict_get "auditable_id" log); [|done].
  rewrite (find_ticket_ext _ _ h h' Hid).
  destruct (find_ticket _ _ h').2 as [|[t|]]; try done.
  by destruct (dict_get "created_at" log) as [[]|].
Qed.

(** The loop body, read off [step_of]. *)
Lemma reconcile_log_run tickets recent log h :
  reconcile_log tickets recent log h =
  match step_of h tickets log with
  | inl e => (h, inl e)
  | inr None => (h, inr recent)
  | inr (Some c) => (write_date h c, inr (recent ++ [c.1]))
  end.
Proof.
  unfold reconcile_log, step_of. munfold.
  pose proof (marks_done_heap log h) as Hh.
  destruct (marks_done log h) as [h1 [e|[|]]]; simpl in *; subst h1; try done.
  destruct (dict_get "auditable_id" log) as [aid|]; [|done].
  pose proof (find_ticket_heap aid tickets h) as Hh.
  pose proof (find_ticket_find aid tickets h) as Hf.
  destruct (find_ticket aid tickets h) as [h1 [e|[t|]]]; simpl in *; subst h1; try done.
  rewrite (find_has_id_truthy aid tickets h t) by by apply Hf.
  destruct (dict_get "created_at" log) as [c|]; [|done].
  destruct c; try done.
  destruct (datetime.strptime s); done.
Qed.

(** A run is the commit of its plan: the writes happen in order up to the
    first exception, and the tickets written to are returned when there is
    none. *)
Lemma foldM_reconcile_plan tickets logs recent h0 h :
  same_ids h0 h →
  foldM (reconcile_log tickets) recent logs h =
  (commit (plan h0 tickets logs).1 h,
   match (plan h0 tickets logs).2 with
   | None => inr (recent ++ (plan h0 tickets logs).1.*1)
   | Some e => inl e
   end).
Proof.
  revert recent h. induction logs as [|log logs IH]; intros recent h Hid; simpl.
  - by rewrite app_nil_r.
  - rewrite run_bind, reconcile_log_run, <-(step_of_ext h0 h) by done.
    destruct (step_of h0 tickets log) as [e|[c|]]; simpl; [done| |by apply IH].
    rewrite (IH (recent ++ [c.1]) (write_date h c)).
    + by rewrite <-app_assoc.
    + eapply same_ids_trans; [done|apply same_ids_write].
Qed.

Lemma get_recent_done_tickets_plan logs tickets h :
  get_recent_done_tickets logs tickets h =
  (commit (plan h tickets logs).1 h,
   match (plan h tickets logs).2 with
   | None => inr (plan h tickets logs).1.*1
   | Some e => inl e
   end).
Proof. unfold get_recent_done_tickets. by rewrite (foldM_reconcile_plan _ _ _ h h). Qed.

Lemma plan_ext h h' tickets logs :
  same_ids h h' → plan h tickets logs = plan h' tickets logs.
Proof.
  intros Hid. induction logs as [|log logs IH]; simpl; [done|].
  by rewrite (step_of_ext h h'), IH.
Qed.

Lemma plan_app h tickets xs ys :
  plan h tickets (xs ++ ys) =
  match (plan h tickets xs).2 with
  | Some e => plan h tickets xs
  | None => ((plan h tickets xs).1 ++ (plan h tickets ys).1, (plan h tickets ys).2)
  end.
Proof.
  induction xs as [|x xs IH]; simpl.
  - by destruct (plan h tickets ys).
  - destruct (step_of h tickets x) as [e|[c|]]; simpl; [done| |done].
    rewrite IH. by destruct (plan h tickets xs) as [cs [e|]].
Qed.

Lemma last_write_cons t c cs :
  last_write t (c :: cs) =
  match last_write t cs with
  | Some s => Some s
  | None => if decide (c.1 = t) then Some c.2 else None
  end.
Proof.
  unfold last_write. rewrite filter_cons. simpl.
  destruct (decide (c.1 = t)).
  - rewrite last_cons. by destruct (last (filter _ cs)).
  - by destruct (last (filter _ cs)).
Qed.

Lemma commit_lookup cs h t :
  commit cs h !! t =
  match last_write t cs with
  | Some s => Some (dict_set "completion_date" (VStr s) (h !!! t))
  | None => h !! t
  end.
Proof.
  revert h. induction cs as [|c cs IH]; intros h; [done|].
  simpl. rewrite IH, last_write_cons. unfold write_date.
  destruct (last_write t cs) as [s|]; destruct (decide (c.1 = t)) as [<-|Hne].
  - by rewrite lookup_total_insert_eq, dict_set_set.
  - by rewrite lookup_total_insert_ne.
  - by rewrite lookup_insert_eq.
  - by rewrite lookup_insert_ne.
Qed.

Lemma commit_lookup_total cs h t :
  commit cs h !!! t =
  match last_write t cs with
  | Some s => dict_set "completion_date" (VStr s) (h !!! t)
  | None => h !!! t
  end.
Proof.
  rewrite !lookup_total_alt, commit_lookup. by destruct (last_write t cs).
Qed.

(** Committing the same writes again changes nothing. *)
Lemma commit_commit cs h : commit cs (commit cs h) = commit cs h.
Proof.
  apply map_eq. intros t. rewrite (commit_lookup cs (commit cs h)).
  rewrite commit_lookup_total, commit_lookup.
  destruct (last_write t cs); [|done]. by rewrite dict_set_set.
Qed.

(** ** Entries and the tickets they reconcile to *)

Lemma reconciled_Some h tickets log t :
  reconciled h tickets log = Some t ↔
  is_update log ∧ status_becomes_done log ∧
  ∃ aid, dict_get "auditable_id" log = Some aid ∧ find (has_id h aid) tickets = Some t.
Proof.
  unfold reconciled, is_update, status_becomes_done. split.
  - intros H.
    destruct (dict_get "action" log) as [[| | |a| |]|]; try done.
    destruct (dict_get "changes" log) as [[| | | | |c]|]; try done.
    destruct (dict_get "auditable_id" log) as [aid|]; try done.
    destruct (dict_get "status" c) as [[| | | | |d]|] eqn:Hs; try done.
    destruct (dict_get "new_value" d) as [[| | |n| |]|] eqn:Hn; try done.
    destruct (String.eqb a "update") eqn:Ha; [|done].
    destruct (String.eqb n "DONE") eqn:Hd; [|done].
    apply String.eqb_eq in Ha as ->. apply String.eqb_eq in Hd as ->.
    eauto 10.
  - intros (-> & (c & d & -> & -> & ->) & aid & -> & Hf). done.
Qed.

Lemma reconciled_None h tickets log :
  reconciled h tickets log = None ↔
  ¬ (is_update log ∧ status_becomes_done log ∧
     ∃ aid, dict_get "auditable_id" log = Some aid ∧
            is_Some (find (has_id h aid) tickets)).
Proof.
  split.
  - intros HN (Hu & Hd & aid & Ha & t & Hf).
    assert (reconciled h tickets log = Some t) as Hs by (apply reconciled_Some; eauto).
    congruence.
  - intros Hn. destruct (reconciled h tickets log) as [t|] eqn:E; [|done].
    apply reconciled_Some in E as (Hu & Hd & aid & Ha & Hf). destruct Hn. eauto 10.
Qed.

Lemma reconciled_ext h h' tickets log :
  same_ids h h' → reconciled h tickets log = reconciled h' tickets log.
Proof.
  intros Hid. unfold reconciled.
  repeat case_match; try done.
  induction tickets as [|t ts IH]; simpl; [done|].
  by rewrite (has_id_ext h h'), IH.
Qed.

(** What the body decides agrees with [contribution] whenever it does not
    raise, and it then writes for every entry that reconciles. *)
Lemma step_of_contribution h tickets log r :
  step_of h tickets log = inr r →
  r = contribution h tickets log ∧ (fst <$> r) = reconciled h tickets log.
Proof.
  unfold step_of, contribution. intros H.
  destruct (marks_done log h).2 as [e|[|]] eqn:Hm; [done| |].
  - apply marks_done_true in Hm as [Hu Hd].
    destruct (dict_get "auditable_id" log) as [aid|] eqn:Ha; [|done].
    destruct (find_ticket aid tickets h).2 as [e|[t|]] eqn:Hf; [done| |].
    + apply find_ticket_find in Hf.
      assert (reconciled h tickets log = Some t) as ->
        by (apply reconciled_Some; eauto 10).
      unfold completion_of. simpl.
      destruct (dict_get "created_at" log) as [[| | |s| |]|]; try done.
      simpl in H. destruct (datetime.strptime s); simplify_eq/=; done.
    + apply find_ticket_find in Hf. simplify_eq.
      assert (reconciled h tickets log = None) as ->; [|done].
      apply reconciled_None. intros (_ & _ & aid' & ? & ? & ?). simplify_eq.
  - simplify_eq. assert (reconciled h tickets log = None) as ->; [|done].
    apply reconciled_None. intros (Hu & Hd & _).
    assert ((marks_done log h).2 = inr true) by by apply marks_done_true.
    congruence.
Qed.

Lemma plan_cons h tickets log logs :
  plan h tickets (log :: logs) =
  match step_of h tickets log with
  | inl e => ([], Some e)
  | inr None => plan h tickets logs
  | inr (Some c) => (c :: (plan h tickets logs).1, (plan h tickets logs).2)
  end.
Proof. done. Qed.

Lemma omap_cons {A B} (f : A → option B) x l :
  omap f (x :: l) = match f x with Some y => y :: omap f l | None => omap f l end.
Proof. done. Qed.

Lemma contribution_reconciled h tickets log :
  fst <$> contribution h tickets log = reconciled h tickets log →
  is_Some (reconciled h tickets log) → is_Some (completion_of log).
Proof.
  unfold contribution. intros H [t Ht]. rewrite Ht in H. simpl in H.
  destruct (completion_of log); [by eexists|done].
Qed.

Lemma plan_contributions h tickets logs :
  (plan h tickets logs).2 = None →
  (plan h tickets logs).1 = omap (contribution h tickets) logs ∧
  (plan h tickets logs).1.*1 = omap (reconciled h tickets) logs ∧
  ∀ log, log ∈ logs →
    is_Some (reconciled h tickets log) → is_Some (completion_of log).
Proof.
  induction logs as [|log logs IH];
    [intros _; split_and!; [done..|by intros ? ?%elem_of_nil]|].
  rewrite plan_cons, !omap_cons.
  destruct (step_of h tickets log) as [e|r] eqn:Hs; [done|].
  apply step_of_contribution in Hs as [-> Hr].
  pose proof (contribution_reconciled h tickets log Hr) as Hc. rewrite <-Hr.
  destruct (contribution h tickets log) as [c|]; intros Hp;
    destruct (IH Hp) as (IH1 & IH2 & IH3).
  - cbn [fst snd fmap option_fmap option_map]. rewrite fmap_cons.
    rewrite IH2, IH1. split_and!; [done..|].
    intros log' [->|Hin]%elem_of_cons; eauto.
  - split_and!; [done..|]. intros log' [->|Hin]%elem_of_cons; eauto.
Qed.





(** An entry that is an update to done for a ticket of the list: the body
    parses its [created_at] and either raises or writes the date. *)
Lemma step_of_matched h tickets log aid t s :
  tickets_have_ids h tickets →
  is_update log → status_becomes_done log →
  dict_get "auditable_id" log = Some aid →
  find (has_id h aid) tickets = Some t →
  dict_get "created_at" log = Some (VStr s) →
  step_of h tickets log =
  match datetime.strptime s with
  | inl e => inl e
  | inr dt => inr (Some (t, datetime.strftime dt))
  end.
Proof.
  intros Hids Hu Hd Ha Hf Hc. unfold step_of.
  assert ((marks_done log h).2 = inr true) as -> by by apply marks_done_true.
  by rewrite Ha, find_ticket_have_ids, Hf, Hc by done.
Qed.

(** The counterexample to C3 as stated: a qualifying entry for ticket 59
    whose [created_at] is not in the format, followed by a well-formed one.
    The call raises [ValueError] instead of returning the list that the
    well-formed entry alone yields. *)
Lemma malformed_created_at_aborts :
  get_recent_done_tickets [log59_malformed; log59] [0; 1]%nat heap0
  = (heap0, inl ValueError) ∧
  (get_recent_done_tickets [log59] [0; 1]%nat heap0).2 = inr [1%nat] ∧
  get_recent_done_tickets [log59_malformed; log59] [0; 1]%nat heap0
  ≠ get_recent_done_tickets [log59] [0; 1]%nat heap0.
Proof.
  assert (get_recent_done_tickets [log59_malformed; log59] [0; 1]%nat heap0
          = (heap0, inl ValueError)) as H1 by (vm_compute; reflexivity).
  assert ((get_recent_done_tickets [log59] [0; 1]%nat heap0).2 = inr [1%nat]) as H2
    by (vm_compute; reflexivity).
  split_and!; [done..|]. intros Heq. rewrite <-Heq, H1 in H2. discriminate.
Qed.

(** C3, amended: a qualifying entry matched to a ticket whose [created_at]
    is a string of ASCII characters that does not parse makes
    [get_recent_done_tickets] raise [ValueError] at that entry.  The call is
    aborted: no list is returned and the later entries are not processed;
    the store is as the earlier entries left it. *)
Theorem get_recent_done_tickets_malformed_created_at
    (pre post : list dict) (log : dict) (tickets : list loc)
    (h h1 : heap) (out : list loc) (aid : value) (t : loc) (s : string) :
  get_recent_done_tickets pre tickets h = (h1, inr out) →
  tickets_have_ids h tickets →
  is_update log → status_becomes_done log →
  dict_get "auditable_id" log = Some aid →
  find (has_id h aid) tickets = Some t →
  dict_get "created_at" log = Some (VStr s) →
  ascii_only s = true →
  datetime.strptime s = inl ValueError →
  get_recent_done_tickets (pre ++ log :: post) tickets h = (h1, inl ValueError).
Proof.
  intros Hpre Hids Hu Hd Ha Hf Hc _ Hs.
  rewrite get_recent_done_tickets_plan in Hpre |- *.
  rewrite plan_app, plan_cons, (step_of_matched h tickets log aid t s), Hs by done.
  destruct (plan h tickets pre) as [cs [e|]]; simpl in *; [done|].
  injection Hpre as <- _. by rewrite app_nil_r.
Qed.

Lemma get_recent_done_tickets_malformed_created_at_witness :
  get_recent_done_tickets ([] ++ log59_malformed :: [log59]) [0; 1]%nat heap0
  = (heap0, inl ValueError).
Proof.
  apply (get_recent_done_tickets_malformed_created_at
           [] [log59] log59_malformed [0; 1]%nat heap0 heap0 [] (VInt 59) 1%nat
           "2024-11-20 10:00:00").
  - reflexivity.
  - repeat constructor; vm_compute; eauto.
  - reflexivity.
  - do 2 eexists. repeat split; reflexivity.
  - reflexivity.
  - reflexivity.
  - reflexivity.
  - reflexivity.
  - vm_compute. reflexivity.
Defined.

Lemma commit_app cs cs' h : commit (cs ++ cs') h = commit cs' (commit cs h).
Proof. unfold commit. by rewrite foldl_app. Qed.

(** C5: for a qualifying entry matched to a ticket, the call parses the
    entry's [created_at] in the format "%Y-%m-%dT%H:%M:%S.%f", formats it as
    "%Y-%m-%d %H:%M:%S", stores it under [completion_date] in the ticket
    object itself and appends that ticket to the output.  In the scenario of
    the specification the output is ticket 59, its [completion_date] is
    "2024-11-20 10:00:00", and the "done" bucket of the classifier refers to
    the same object. *)
Theorem get_recent_done_tickets_sets_completion_date :
  (∀ (pre : list dict) (log : dict) (tickets : list loc) (h h1 : heap)
     (out : list loc) (aid : value) (t : loc) (s : string) (dt : datetime.t),
     get_recent_done_tickets pre tickets h = (h1, inr out) →
     tickets_have_ids h tickets →
     is_update log → status_becomes_done log →
     dict_get "auditable_id" log = Some aid →
     find (has_id h aid) tickets = Some t →
     dict_get "created_at" log = Some (VStr s) →
     datetime.strptime s = inr dt →
     get_recent_done_tickets (pre ++ [log]) tickets h =
     (<[t := dict_set "completion_date" (VStr (datetime.strftime dt)) (h1 !!! t)]> h1,
      inr (out ++ [t]))) ∧
  (∃ h', get_recent_done_tickets [log59] [0; 1]%nat heap0 = (h', inr [1%nat]) ∧
         dict_get "id" (h' !!! 1%nat) = Some (VInt 59) ∧
         dict_get "completion_date" (h' !!! 1%nat) = Some (VStr "2024-11-20 10:00:00") ∧
         ∃ ts, categorize_tickets [0; 1]%nat heap0 = (heap0, inr (ts, [])) ∧
               summary_get "done" ts = [1%nat]).
Proof.
  split.
  - intros pre log tickets h h1 out aid t s dt Hpre Hids Hu Hd Ha Hf Hc Hs.
    rewrite get_recent_done_tickets_plan in Hpre |- *.
    rewrite plan_app, plan_cons, (step_of_matched h tickets log aid t s), Hs by done.
    destruct (plan h tickets pre) as [cs [e|]]; simpl in *; [done|].
    injection Hpre as <- <-. by rewrite commit_app, fmap_app.
  - eexists. split; [vm_compute; reflexivity|].
    split_and!; [vm_compute; reflexivity..|].
    eexists. split; vm_compute; reflexivity.
Qed.

Lemma get_recent_done_tickets_sets_completion_date_witness :
  get_recent_done_tickets ([log58] ++ [log59]) [0; 1]%nat heap0 =
  (<[1%nat := dict_set "completion_date" (VStr "2024-11-20 10:00:00")
                (<[0%nat := dict_set "completion_date" (VStr "2024-11-19 09:15:00") ticket58]>
                   heap0 !!! 1%nat)]>
     (<[0%nat := dict_set "completion_date" (VStr "2024-11-19 09:15:00") ticket58]> heap0),
   inr ([0%nat] ++ [1%nat])).
Proof.
  apply (proj1 get_recent_done_tickets_sets_completion_date
           [log58] log59 [0; 1]%nat heap0 _ [0%nat] (VInt 59) 1%nat
           "2024-11-20T10:00:00.0"
           (datetime.mk 2024 11 20 10 0 0 0)).
  - vm_compute. reflexivity.
  - repeat constructor; vm_compute; eauto.
  - reflexivity.
  - do 2 eexists. repeat split; reflexivity.
  - reflexivity.
  - reflexivity.
  - reflexivity.
  - vm_compute. reflexivity.
Defined.

(** The year is written as [%Y] gives it: a timestamp of the year 999 is
    stored with a year of three digits. *)
Example strftime_year_below_1000 :
  sum_map id datetime.strftime (datetime.strptime "0999-01-01T00:00:00.0")
  = inr "999-01-01 00:00:00".
Proof. vm_compute. reflexivity. Qed.

(** C9: running the reconciliation again on the same audit logs and tickets,
    in the store the first run left, gives the same result and leaves every
    ticket as it was: each affected ticket gets the same [completion_date]
    again.  The date depends on the entry's [created_at] only. *)
Theorem get_recent_done_tickets_idempotent
    (audit_logs : list dict) (tickets : list loc) (h h' : heap) (r : exn + list loc) :
  get_recent_done_tickets audit_logs tickets h = (h', r) →
  get_recent_done_tickets audit_logs tickets h' = (h', r).
Proof.
  rewrite !get_recent_done_tickets_plan. intros [= <- <-].
  rewrite <-(plan_ext h (commit (plan h tickets audit_logs).1 h)) by apply same_ids_commit.
  by rewrite commit_commit.
Qed.

Lemma get_recent_done_tickets_idempotent_witness :
  get_recent_done_tickets [log59; log58; log59_again] [0; 1]%nat
    (get_recent_done_tickets [log59; log58; log59_again] [0; 1]%nat heap0).1
  = ((get_recent_done_tickets [log59; log58; log59_again] [0; 1]%nat heap0).1,
     inr [1; 0; 1]%nat).
Proof.
  apply (get_recent_done_tickets_idempotent [log59; log58; log59_again] [0; 1]%nat heap0).
  vm_compute. reflexivity.
Defined.

(** ** Several completions of one ticket *)

Lemma omap_all_same {A B} (f : A → option B) (l : list A) (y : B) :
  (∀ x, x ∈ l → is_Some (f x) → f x = Some y) →
  omap f l = replicate (length (filter (λ x, is_Some (f x)) l)) y.
Proof.
  induction l as [|x l IH]; intros Hall; [done|].
  rewrite omap_cons, filter_cons.
  assert (omap f l = replicate (length (filter (λ x, is_Some (f x)) l)) y) as Hl.
  { apply IH. intros x' Hin. apply Hall. by right. }
  destruct (f x) as [y'|] eqn:Hfx.
  - assert (Some y' = Some y) as [= ->].
    { rewrite <-Hfx. apply Hall; [by left|]. by rewrite Hfx. }
    rewrite decide_True by done. simpl. by rewrite Hl.
  - rewrite decide_False by (by intros [? ?]). done.
Qed.

Lemma last_write_all_same h tickets logs t :
  (∀ log, log ∈ logs → is_Some (reconciled h tickets log) →
          reconciled h tickets log = Some t ∧ is_Some (completion_of log)) →
  last_write t (omap (contribution h tickets) logs) =
  last (filter (λ log, is_Some (reconciled h tickets log)) logs) ≫= completion_of.
Proof.
  induction logs as [|log logs IH]; intros Hall; [done|].
  assert (∀ log', log' ∈ logs → is_Some (reconciled h tickets log') →
            reconciled h tickets log' = Some t ∧ is_Some (completion_of log')) as Hl
    by (intros log' Hin; apply Hall; by right).
  specialize (IH Hl).
  rewrite omap_cons, filter_cons. unfold contribution at 1.
  destruct (reconciled h tickets log) as [t'|] eqn:Hr; simpl.
  - assert (log ∈ log :: logs) as Hin0 by by left.
    pose proof (Hall log Hin0) as Hlog. rewrite Hr in Hlog.
    destruct Hlog as [[= ->] [s Hs]]; [by eexists|].
    rewrite Hs. simpl.
    rewrite last_write_cons, last_cons, IH. simpl.
    destruct (last (filter _ logs)) as [y|] eqn:Hlast; simpl.
    + apply last_Some_elem_of, list_elem_of_filter in Hlast as [Hy Hin].
      destruct (Hl y Hin Hy) as [_ [sy ->]]. done.
    + by rewrite decide_True.
  - done.
Qed.

(** C7: when every reconciling entry of the audit log names the same ticket,
    the output holds that ticket once per such entry, every element being
    the same object, and the ticket's [completion_date] after the call is
    the formatted [created_at] of the last such entry. *)
Theorem get_recent_done_tickets_repeated_completion
    (audit_logs : list dict) (tickets : list loc) (h h' : heap)
    (out : list loc) (t : loc) :
  get_recent_done_tickets audit_logs tickets h = (h', inr out) →
  (∀ log, log ∈ audit_logs → is_Some (reconciled h tickets log) →
          reconciled h tickets log = Some t) →
  out = replicate
          (length (filter (λ log, is_Some (reconciled h tickets log)) audit_logs)) t ∧
  ∀ log_last,
    last (filter (λ log, is_Some (reconciled h tickets log)) audit_logs) = Some log_last →
    ∃ s dt, dict_get "created_at" log_last = Some (VStr s) ∧
            datetime.strptime s = inr dt ∧
            dict_get "completion_date" (h' !!! t)
            = Some (VStr (datetime.strftime dt)).
Proof.
  rewrite get_recent_done_tickets_plan.
  destruct (plan h tickets audit_logs).2 eqn:Hp; [done|].
  intros [= <- <-] Hall.
  destruct (plan_contributions h tickets audit_logs Hp) as (Hcs & Hout & Hdates).
  split.
  - rewrite Hout. by apply omap_all_same.
  - intros log_last Hlast.
    rewrite commit_lookup_total, Hcs, last_write_all_same, Hlast by eauto.
    simpl. unfold completion_of.
    apply last_Some_elem_of, list_elem_of_filter in Hlast as [Hy Hin].
    destruct (Hdates log_last Hin Hy) as [s' Hs']. unfold completion_of in *.
    destruct (dict_get "created_at" log_last) as [[| | |s| |]|]; try done.
    destruct (datetime.strptime s) as [|dt] eqn:Hdt; [done|].
    exists s, dt. split_and!; [done..|]. by rewrite dict_get_set_eq.
Qed.

Lemma get_recent_done_tickets_repeated_completion_witness :
  (get_recent_done_tickets [log59; log999; log59_again] [0; 1]%nat heap0).2
  = inr [1; 1]%nat ∧
  dict_get "completion_date"
    ((get_recent_done_tickets [log59; log999; log59_again] [0; 1]%nat heap0).1
       !!! 1%nat)
  = Some (VStr "2024-11-21 08:30:00").
Proof.
  destruct (get_recent_done_tickets_repeated_completion
              [log59; log999; log59_again] [0; 1]%nat heap0
              (get_recent_done_tickets [log59; log999; log59_again] [0; 1]%nat heap0).1
              [1; 1]%nat 1%nat) as [Hout Hlast].
  - vm_compute. reflexivity.
  - intros log Hin Hs.
    repeat (apply elem_of_cons in Hin as [->|Hin]; [vm_compute in Hs |- *|]).
    + reflexivity.
    + by destruct Hs.
    + reflexivity.
    + by apply elem_of_nil in Hin.
  - split; [vm_compute; reflexivity|].
    destruct (Hlast log59_again) as (s & dt & Hs & Hdt & ->); [vm_compute; reflexivity|].
    change (Some (VStr "2024-11-21T08:30:00.250") = Some (VStr s)) in Hs.
    injection Hs as <-.
    assert (sum_map id datetime.strftime
              (datetime.strptime "2024-11-21T08:30:00.250")
            = inr "2024-11-21 08:30:00") as Hp by (vm_compute; reflexivity).
    rewrite Hdt in Hp. cbn [sum_map] in Hp. injection Hp as ->. reflexivity.
Defined.

(** ** The order on strings *)

Lemma string_compare_OT a b : String.compare a b = String_as_OT.compare a b.
Proof.
  revert b. induction a as [|c a IH]; intros [|d b]; simpl; [done..|].
  rewrite IH. change (Ascii_as_OT.compare c d) with (Ascii.compare c d).
  by destruct (Ascii.compare c d).
Qed.

Lemma string_compare_refl a : String.compare a a = Eq.
Proof.
  pose proof (String.compare_antisym a a) as H.
  destruct (String.compare a a); done.
Qed.

Lemma string_ltb_false_leb x y : String.ltb x y = false → String.leb y x = true.
Proof.
  unfold String.ltb, String.leb. rewrite (String.compare_antisym y x).
  by destruct (String.compare x y).
Qed.

Lemma string_ltb_leb x y : String.ltb x y = true → String.leb x y = true.
Proof. unfold String.ltb, String.leb. by destruct (String.compare x y). Qed.

Lemma string_ltb_not_leb x y : String.ltb x y = true → String.leb y x = false.
Proof.
  unfold String.ltb, String.leb. rewrite (String.compare_antisym y x).
  by destruct (String.compare x y).
Qed.

Lemma string_leb_refl x : String.leb x x = true.
Proof. unfold String.leb. by rewrite string_compare_refl. Qed.

Lemma string_leb_trans x y z :
  String.leb x y = true → String.leb y z = true → String.leb x z = true.
Proof.
  unfold String.leb. intros Hxy Hyz.
  destruct (String.compare x y) eqn:E1; [| |done].
  - apply String.compare_eq_iff in E1 as ->. done.
  - destruct (String.compare y z) eqn:E2; [| |done].
    + apply String.compare_eq_iff in E2 as <-. by rewrite E1.
    + rewrite string_compare_OT in *.
      by rewrite (StrictOrder_Transitive (R:=String_as_OT.lt) x y z E1 E2).
Qed.

Lemma string_leb_empty x : String.leb "" x = true.
Proof. by destruct x. Qed.

(** ** Insertion on string keys: sorted, a permutation, stable *)

Abbreviation key_le := (λ a b : string * loc, String.leb a.1 b.1 = true).

Lemma insort_str_perm x l : insort_str x l ≡ₚ x :: l.
Proof.
  induction l as [|y l IH]; simpl; [done|].
  destruct (String.ltb x.1 y.1); [done|]. rewrite IH. apply Permutation_swap.
Qed.

Lemma insort_str_sorted x l :
  StronglySorted key_le l → StronglySorted key_le (insort_str x l).
Proof.
  induction 1 as [|y l Hl IH Hy]; simpl.
  - repeat constructor.
  - destruct (String.ltb x.1 y.1) eqn:E.
    + constructor; [by constructor|]. constructor.
      * by apply string_ltb_leb.
      * eapply Forall_impl; [done|]. intros z Hz. simpl in *.
        eapply string_leb_trans; [by apply string_ltb_leb|done].
    + constructor; [done|]. rewrite insort_str_perm. constructor; [|done].
      by apply string_ltb_false_leb.
Qed.

Lemma filter_none {A} (P : A → Prop) `{!∀ x, Decision (P x)} (l : list A) :
  Forall (λ x, ¬ P x) l → filter P l = [].
Proof.
  induction 1 as [|x l Hx _ IH]; [done|]. by rewrite filter_cons, decide_False.
Qed.

(** The new element goes behind the earlier elements with the same key. *)
Lemma insort_str_stable x l s :
  StronglySorted key_le l →
  filter (λ p, p.1 = s) (insort_str x l) =
  filter (λ p, p.1 = s) l ++ filter (λ p, p.1 = s) [x].
Proof.
  induction 1 as [|y l Hl IH Hy]; simpl; [done|].
  destruct (String.ltb x.1 y.1) eqn:E.
  - rewrite (filter_cons _ x), (filter_cons _ x []), filter_nil.
    destruct (decide (x.1 = s)) as [Hx|Hx]; [|by rewrite app_nil_r].
    rewrite (filter_none _ (y :: l)); [done|].
    apply string_ltb_not_leb in E.
    assert (∀ z : string * loc, String.leb y.1 z.1 = true → z.1 ≠ s) as Hne.
    { intros z Hz Hzs. rewrite <-Hx in Hzs. rewrite Hzs in Hz. congruence. }
    constructor; [apply Hne, string_leb_refl|].
    eapply Forall_impl; [done|]. intros z Hz. by apply Hne.
  - rewrite !(filter_cons _ y), IH. by destruct (decide (y.1 = s)).
Qed.

Lemma sort_into_str_perm acc l : sort_into_str acc l ≡ₚ acc ++ l.
Proof.
  revert acc. induction l as [|x l IH]; intros acc; simpl.
  - by rewrite app_nil_r.
  - rewrite IH, insort_str_perm. simpl. apply Permutation_middle.
Qed.

Lemma sort_into_str_sorted acc l :
  StronglySorted key_le acc → StronglySorted key_le (sort_into_str acc l).
Proof.
  revert acc. induction l as [|x l IH]; intros acc Hacc; simpl; [done|].
  by apply IH, insort_str_sorted.
Qed.

Lemma sort_into_str_stable acc l s :
  StronglySorted key_le acc →
  filter (λ p, p.1 = s) (sort_into_str acc l) =
  filter (λ p, p.1 = s) acc ++ filter (λ p, p.1 = s) l.
Proof.
  revert acc. induction l as [|x l IH]; intros acc Hacc; simpl.
  - by rewrite app_nil_r.
  - rewrite IH by by apply insort_str_sorted.
    rewrite insort_str_stable by done.
    by rewrite <-app_assoc, (filter_cons _ x l), (filter_cons _ x []), filter_nil;
      destruct (decide (x.1 = s)).
Qed.

(** On string keys the sort of the model is this insertion sort and raises
    nothing. *)
Lemma insort_tag x l : insort (tag x) (tag <$> l) = inr (tag <$> insort_str x l).
Proof.
  destruct x as [kx tx]. induction l as [|[ky ty] l IH]; simpl in *; [done|].
  destruct (String.ltb kx ky); [done|].
  change (list_fmap _ _ tag l) with (tag <$> l). by rewrite IH.
Qed.

Lemma sort_into_tag acc l :
  sort_into (tag <$> acc) (tag <$> l) = inr (tag <$> sort_into_str acc l).
Proof.
  revert acc. induction l as [|x l IH]; intros acc; [done|].
  rewrite fmap_cons. cbn [sort_into sort_into_str]. by rewrite insort_tag, IH.
Qed.

(** Whatever the keys, a sort that returns has permuted its input. *)
Lemma insort_perm x l r : insort x l = inr r → r ≡ₚ x :: l.
Proof.
  revert r. induction l as [|y l IH]; intros r; simpl.
  - by intros [= <-].
  - destruct (py_lt x.1 y.1) as [|[|]]; [done|by intros [= <-]|].
    destruct (insort x l) as [|r']; [done|]. intros [= <-].
    rewrite (IH r') by done. apply Permutation_swap.
Qed.

Lemma sort_into_perm acc l r : sort_into acc l = inr r → r ≡ₚ acc ++ l.
Proof.
  revert acc. induction l as [|x l IH]; intros acc; simpl.
  - intros [= <-]. by rewrite app_nil_r.
  - destruct (insort x acc) as [|acc'] eqn:E; [done|]. intros ->%IH.
    rewrite (insort_perm _ _ _ E). simpl. apply Permutation_middle.
Qed.

(** ** The classifier *)

Lemma mapM_keys l h :
  mapM (λ x, d ← deref x; mret (start_date_key d, x)) l h = (h, inr (keyed h l)).
Proof.
  induction l as [|x l IH]; [done|].
  cbn [mapM]. rewrite run_bind. unfold deref at 1. rewrite run_bind.
  unfold mret at 1, M_ret at 1. rewrite run_bind, IH. done.
Qed.

Lemma sorted_by_start_date_run l h :
  sorted_by_start_date l h = (h, sorted_of h l).
Proof.
  unfold sorted_by_start_date, sorted_of. rewrite run_bind, mapM_keys, run_bind.
  unfold lift. by destruct (sort_into [] (keyed h l)).
Qed.

Lemma sort_buckets_cons kv ts h :
  sort_buckets (kv :: ts) h =
  match sorted_of h kv.2 with
  | inl e => (h, inl e)
  | inr l =>
      match sort_buckets ts h with
      | (h', inl e) => (h', inl e)
      | (h', inr ts') => (h', inr ((kv.1, l) :: ts'))
      end
  end.
Proof.
  unfold sort_buckets. cbn [mapM]. rewrite !run_bind, sorted_by_start_date_run.
  destruct (sorted_of h kv.2) as [e|l]; [done|].
  unfold mret at 1, M_ret at 1. by rewrite run_bind.
Qed.

Lemma sort_buckets_heap ts h : (sort_buckets ts h).1 = h.
Proof.
  induction ts as [|kv ts IH]; [done|]. rewrite sort_buckets_cons.
  destruct (sorted_of h kv.2) as [e|l]; [done|].
  by destruct (sort_buckets ts h) as [h1 [e|ts']].
Qed.

Lemma sort_buckets_inr ts h h' ts' :
  sort_buckets ts h = (h', inr ts') →
  Forall2 (λ kv kv', kv'.1 = kv.1 ∧ sorted_of h kv.2 = inr kv'.2) ts ts'.
Proof.
  revert ts' h'. induction ts as [|kv ts IH]; intros ts' h'.
  - intros [= <- <-]. constructor.
  - rewrite sort_buckets_cons.
    destruct (sorted_of h kv.2) as [e|l] eqn:Hl; [done|].
    destruct (sort_buckets ts h) as [h1 [e|ts1]] eqn:Hts; [done|].
    intros [= <- <-]. constructor; [done|]. by eapply IH.
Qed.

Lemma sort_buckets_returns ts h :
  Forall (λ kv, ∃ l, sorted_of h kv.2 = inr l) ts →
  ∃ ts', sort_buckets ts h = (h, inr ts').
Proof.
  induction 1 as [|kv ts [l Hl] _ [ts' IH]]; [by eexists|].
  rewrite sort_buckets_cons, Hl, IH. by eexists.
Qed.

Lemma filter_singleton_bool (P : loc → bool) t :
  filter P [t] = if P t then [t] else [].
Proof. rewrite filter_cons, filter_nil. by destruct (P t). Qed.

Lemma summary_append_absent s t ts :
  summary_has s ts = false → summary_append s t ts = ts.
Proof.
  unfold summary_has, summary_append. induction ts as [|kv ts IH]; simpl; [done|].
  intros [-> Hts]%orb_false_iff. by rewrite IH.
Qed.

Lemma place_bucket h t ts rs s :
  is_risk h t = false →
  dict_get "status" (h !!! t) = Some (VStr s) →
  place h t (ts, rs) = (summary_append s t ts, rs).
Proof.
  intros Hr Hs. unfold place, summary_append. simpl. f_equal.
  - apply map_ext. intros [k l]. simpl.
    rewrite filter_singleton_bool. unfold in_bucket, has_status. rewrite Hr, Hs. simpl.
    rewrite (String.eqb_sym s k). destruct (String.eqb k s); [done|by rewrite app_nil_r].
  - rewrite filter_singleton_bool, Hr. by rewrite app_nil_r.
Qed.

Lemma place_nowhere h t ts rs :
  is_risk h t = false →
  (∀ k, (k, filter (in_bucket h k) [t]) = (k, [])) →
  place h t (ts, rs) = (ts, rs).
Proof.
  intros Hr Hno. unfold place. simpl. f_equal.
  - rewrite <-(map_id ts) at 2. apply map_ext. intros [k l]. simpl.
    specialize (Hno k). injection Hno as ->. by rewrite app_nil_r.
  - rewrite filter_singleton_bool, Hr. by rewrite app_nil_r.
Qed.

Lemma place_risk h t ts rs :
  is_risk h t = true → place h t (ts, rs) = (ts, rs ++ [t]).
Proof.
  intros Hr. unfold place. simpl. f_equal.
  - rewrite <-(map_id ts) at 2. apply map_ext. intros [k l]. simpl.
    rewrite filter_singleton_bool. unfold in_bucket. rewrite Hr. simpl.
    by rewrite app_nil_r.
  - by rewrite filter_singleton_bool, Hr.
Qed.

Lemma categorize_ticket_heap acc t h : (categorize_ticket acc t h).1 = h.
Proof. unfold categorize_ticket. munfold. repeat case_match; simplify_eq/=; done. Qed.

(** A pass that does not raise has placed the ticket. *)
Lemma categorize_ticket_inr acc t h h' acc' :
  categorize_ticket acc t h = (h', inr acc') → acc' = place h t acc.
Proof.
  destruct acc as [ts rs]. unfold categorize_ticket. munfold.
  destruct (dict_get "type" (h !!! t)) as [ty|] eqn:Hty; [|done].
  destruct (py_eq ty (VStr "Risk")) eqn:Hrisk.
  - intros [= <- <-]. symmetry. apply place_risk. unfold is_risk. by rewrite Hty.
  - assert (is_risk h t = false) as Hr by (unfold is_risk; by rewrite Hty).
    destruct (dict_get "status" (h !!! t)) as [st|] eqn:Hst; [|done].
    destruct st as [| | |s| |]; try done.
    4:{ intros H. symmetry. rewrite (place_bucket h t ts rs s) by done.
        destruct (summary_has s ts) eqn:Hhas; simplify_eq/=; [done|].
        by rewrite summary_append_absent. }
    all: intros [= <- <-]; symmetry; apply place_nowhere; [done|];
      intros k; rewrite filter_singleton_bool; unfold in_bucket, has_status;
      rewrite Hr, Hst; done.
Qed.

(** A pass raises only for a missing type, a missing status of a ticket
    that is not a risk, or an unhashable status of such a ticket. *)
Lemma categorize_ticket_inl acc t h h' e :
  categorize_ticket acc t h = (h', inl e) →
  (e = KeyError "type" ∧ dict_get "type" (h !!! t) = None) ∨
  (e = KeyError "status" ∧ is_risk h t = false ∧
   is_Some (dict_get "type" (h !!! t)) ∧ dict_get "status" (h !!! t) = None) ∨
  (e = TypeError ∧ is_risk h t = false ∧
   ∃ st, dict_get "status" (h !!! t) = Some st ∧ hashable st = false).
Proof.
  unfold categorize_ticket. munfold.
  destruct (dict_get "type" (h !!! t)) as [ty|] eqn:Hty; [|intros [= <- <-]; by left].
  destruct (py_eq ty (VStr "Risk")) eqn:Hrisk; [done|].
  assert (is_risk h t = false) as Hr by (unfold is_risk; by rewrite Hty).
  destruct (dict_get "status" (h !!! t)) as [st|] eqn:Hst;
    [|intros [= <- <-]; right; left; eauto].
  destruct st as [| | |s| |]; try done.
  - by destruct (summary_has s acc.1).
  - intros [= <- <-]. right; right. eauto.
  - intros [= <- <-]. right; right. eauto.
Qed.

Lemma categorize_ticket_missing acc t h :
  missing_required h t →
  categorize_ticket acc t h = (h, inl (KeyError "type")) ∨
  categorize_ticket acc t h = (h, inl (KeyError "status")).
Proof.
  unfold missing_required, is_risk, categorize_ticket. munfold. intros [->|[Hr ->]].
  - by left.
  - destruct (dict_get "type" (h !!! t)) as [ty|]; [|by left].
    right. by rewrite Hr.
Qed.

Lemma categorize_ticket_classifiable acc t h :
  classifiable h t → categorize_ticket acc t h = (h, inr (place h t acc)).
Proof.
  intros [[ty Hty] Hst].
  destruct (categorize_ticket acc t h) as [h' [e|acc']] eqn:E.
  - apply categorize_ticket_inl in E as [[_ ?]|[(_ & Hr & _ & Hn)|(_ & Hr & st & Hs & Hh)]].
    + congruence.
    + destruct (Hst Hr) as (st & ? & _). congruence.
    + destruct (Hst Hr) as (st' & ? & ?). congruence.
  - pose proof (categorize_ticket_heap acc t h) as Hh. rewrite E in Hh. simpl in Hh.
    subst h'. by rewrite (categorize_ticket_inr _ _ _ _ _ E).
Qed.

Lemma placed_nil h acc : placed h [] acc = acc.
Proof.
  destruct acc as [ts rs]. unfold placed. simpl. rewrite app_nil_r. f_equal.
  rewrite <-(map_id ts) at 2. apply map_ext. intros [k l]. simpl. by rewrite app_nil_r.
Qed.

Lemma placed_cons h t tickets acc :
  placed h (t :: tickets) acc = placed h tickets (place h t acc).
Proof.
  destruct acc as [ts rs]. unfold placed, place. simpl. f_equal.
  - rewrite map_map. apply map_ext. intros [k l]. simpl.
    by rewrite <-app_assoc, <-filter_app.
  - by rewrite <-app_assoc, <-filter_app.
Qed.

Lemma foldM_categorize_heap acc tickets h :
  (foldM categorize_ticket acc tickets h).1 = h.
Proof.
  revert acc. induction tickets as [|t tickets IH]; intros acc; [done|].
  cbn [foldM]. rewrite run_bind.
  pose proof (categorize_ticket_heap acc t h) as Hh.
  destruct (categorize_ticket acc t h) as [h1 [e|acc1]]; simpl in *; subst h1; [done|].
  apply IH.
Qed.

Lemma foldM_categorize_inr acc tickets h h' acc' :
  foldM categorize_ticket acc tickets h = (h', inr acc') →
  acc' = placed h tickets acc.
Proof.
  revert acc. induction tickets as [|t tickets IH]; intros acc.
  - intros [= <- <-]. by rewrite placed_nil.
  - cbn [foldM]. rewrite run_bind, placed_cons.
    pose proof (categorize_ticket_heap acc t h) as Hh.
    destruct (categorize_ticket acc t h) as [h1 [e|acc1]] eqn:E;
      simpl in *; subst h1; [done|].
    apply categorize_ticket_inr in E as ->. apply IH.
Qed.

Lemma foldM_categorize_classifiable acc tickets h :
  Forall (classifiable h) tickets →
  foldM categorize_ticket acc tickets h = (h, inr (placed h tickets acc)).
Proof.
  intros Hall. revert acc. induction Hall as [|t tickets Ht _ IH]; intros acc.
  - by rewrite placed_nil.
  - cbn [foldM]. by rewrite run_bind, categorize_ticket_classifiable, IH, placed_cons.
Qed.

(** The first loop raises at the first ticket it cannot classify. *)
Lemma foldM_categorize_inl acc tickets h h' e :
  foldM categorize_ticket acc tickets h = (h', inl e) →
  ∃ t, t ∈ tickets ∧
    ((e = KeyError "type" ∧ dict_get "type" (h !!! t) = None) ∨
     (e = KeyError "status" ∧ is_risk h t = false ∧
      is_Some (dict_get "type" (h !!! t)) ∧ dict_get "status" (h !!! t) = None) ∨
     (e = TypeError ∧ is_risk h t = false ∧
      ∃ st, dict_get "status" (h !!! t) = Some st ∧ hashable st = false)).
Proof.
  revert acc. induction tickets as [|t tickets IH]; intros acc; [done|].
  cbn [foldM]. rewrite run_bind.
  pose proof (categorize_ticket_heap acc t h) as Hh.
  destruct (categorize_ticket acc t h) as [h1 [e1|acc1]] eqn:E;
    simpl in *; subst h1.
  - intros [= <- <-]. exists t. split; [by left|]. by eapply categorize_ticket_inl.
  - intros (t' & Hin & Ht')%IH. exists t'. split; [by right|done].
Qed.

Lemma foldM_categorize_missing acc tickets h :
  (∃ t, t ∈ tickets ∧ missing_required h t) →
  ∃ e, foldM categorize_ticket acc tickets h = (h, inl e) ∧
       (e = KeyError "type" ∨ e = KeyError "status" ∨ e = TypeError).
Proof.
  revert acc. induction tickets as [|t tickets IH]; intros acc (t' & Hin & Hbad).
  - by apply elem_of_nil in Hin.
  - cbn [foldM]. rewrite run_bind.
    pose proof (categorize_ticket_heap acc t h) as Hh.
    destruct (categorize_ticket acc t h) as [h1 [e1|acc1]] eqn:E;
      simpl in *; subst h1.
    + exists e1. split; [done|].
      apply categorize_ticket_inl in E as [[-> _]|[[-> _]|[-> _]]]; eauto.
    + apply elem_of_cons in Hin as [->|Hin]; [|apply IH; eauto].
      destruct (categorize_ticket_missing acc t h Hbad); congruence.
Qed.

(** The call as a whole: the first loop, then the sort of every bucket. *)
Lemma categorize_tickets_run tickets h :
  categorize_tickets tickets h =
  match foldM categorize_ticket (tickets_summary_init, []) tickets h with
  | (h1, inl e) => (h1, inl e)
  | (h1, inr acc) =>
      match sort_buckets acc.1 h1 with
      | (h2, inl e) => (h2, inl e)
      | (h2, inr ts) => (h2, inr (ts, acc.2))
      end
  end.
Proof.
  unfold categorize_tickets. rewrite run_bind.
  destruct (foldM _ _ _ h) as [h1 [e|acc]]; [done|]. rewrite run_bind.
  by destruct (sort_buckets acc.1 h1) as [h2 [e|ts]].
Qed.

Lemma categorize_tickets_heap tickets h : (categorize_tickets tickets h).1 = h.
Proof.
  rewrite categorize_tickets_run.
  pose proof (foldM_categorize_heap (tickets_summary_init, []) tickets h) as Hh.
  destruct (foldM _ _ _ h) as [h1 [e|acc]]; simpl in *; subst h1; [done|].
  pose proof (sort_buckets_heap acc.1 h) as Hh.
  by destruct (sort_buckets acc.1 h) as [h2 [e|ts]].
Qed.

(** When the call returns, the risks are the risk tickets in input order and
    the bucket under each of the five keys is the sorted list of the tickets
    that belong in it. *)
Lemma categorize_tickets_inr tickets h h' ts risks :
  categorize_tickets tickets h = (h', inr (ts, risks)) →
  risks = filter (is_risk h) tickets ∧
  Forall2 (λ k kv, kv.1 = k ∧
                   sorted_of h (filter (in_bucket h k) tickets) = inr kv.2)
          status_keys ts.
Proof.
  rewrite categorize_tickets_run.
  pose proof (foldM_categorize_heap (tickets_summary_init, []) tickets h) as Hh.
  destruct (foldM _ _ _ h) as [h1 [e|acc]] eqn:E; simpl in *; subst h1; [done|].
  apply foldM_categorize_inr in E as ->.
  destruct (sort_buckets _ h) as [h2 [e|ts']] eqn:Es; [done|].
  intros [= <- <- <-]. split; [done|].
  apply sort_buckets_inr in Es. simpl in Es.
  repeat match goal with
         | H : Forall2 _ (_ :: _) _ |- _ =>
             apply Forall2_cons_inv_l in H as (? & ? & [? ?] & ? & ->)
         | H : Forall2 _ [] _ |- _ => apply Forall2_nil_inv_l in H as ->
         end.
  simpl in *. repeat constructor; done.
Qed.

(** ** Sorting a bucket by start date *)

Section keyed_by.
Context (f : loc → string).

Lemma keyed_by_sorted (ps : list (string * loc)) :
  Forall (λ p, p.1 = f p.2) ps →
  StronglySorted key_le ps →
  StronglySorted (λ a b, String.leb (f a) (f b) = true) ps.*2.
Proof.
  intros Hf Hs. induction Hs as [|p ps Hps IH Hp]; [constructor|].
  apply Forall_cons in Hf as [Hp1 Hf]. rewrite fmap_cons.
  constructor; [by apply IH|]. apply Forall_fmap.
  rewrite Forall_forall in Hf, Hp |- *. intros q Hq. simpl.
  rewrite <-Hp1, <-(Hf q Hq). by apply Hp.
Qed.

Lemma keyed_by_filter (ps : list (string * loc)) s :
  Forall (λ p, p.1 = f p.2) ps →
  (filter (λ p, p.1 = s) ps).*2 = filter (λ t, f t = s) ps.*2.
Proof.
  induction 1 as [|p ps Hp _ IH]; [done|].
  rewrite fmap_cons, !filter_cons, <-IH, Hp.
  by destruct (decide (f p.2 = s)).
Qed.
End keyed_by.

Lemma sorted_of_str h l :
  Forall (start_date_is_str h) l →
  sorted_of h l = inr (sort_into_str [] ((λ t, (date_of h t, t)) <$> l)).*2.
Proof.
  intros Hl. unfold sorted_of.
  assert (keyed h l = tag <$> ((λ t, (date_of h t, t)) <$> l)) as ->.
  { unfold keyed. rewrite <-list_fmap_compose. apply Forall_fmap_ext.
    eapply Forall_impl; [done|]. intros t [s Hs]. unfold tag, date_of. simpl.
    by rewrite Hs. }
  change (@nil (value * loc)) with (tag <$> @nil (string * loc)).
  rewrite sort_into_tag. f_equal. rewrite <-list_fmap_compose.
  by apply list_fmap_ext.
Qed.

(** A bucket sorted on string start dates is in ascending order, holds the
    tickets it was given, and keeps tickets of equal date in the order it
    was given them. *)
Lemma sorted_of_str_spec h l b :
  Forall (start_date_is_str h) l →
  sorted_of h l = inr b →
  StronglySorted (date_le h) b ∧
  b ≡ₚ l ∧
  ∀ s, filter (λ t, date_of h t = s) b = filter (λ t, date_of h t = s) l.
Proof.
  intros Hl. rewrite sorted_of_str by done. intros [= <-].
  set (dl := (λ t, (date_of h t, t)) <$> l).
  assert (Forall (λ p : string * loc, p.1 = date_of h p.2) (sort_into_str [] dl)) as Hinv.
  { rewrite sort_into_str_perm. simpl. unfold dl. by apply Forall_fmap, Forall_true. }
  assert (dl.*2 = l) as Hdl.
  { unfold dl. rewrite <-list_fmap_compose. rewrite <-(list_fmap_id l) at 2.
    by apply list_fmap_ext. }
  split_and!.
  - apply (keyed_by_sorted (date_of h)); [done|].
    apply sort_into_str_sorted. constructor.
  - rewrite sort_into_str_perm. simpl. by rewrite Hdl.
  - intros s. rewrite <-(keyed_by_filter (date_of h)) by done.
    rewrite sort_into_str_stable by constructor. simpl.
    rewrite (keyed_by_filter (date_of h)), Hdl; [done|].
    unfold dl. by apply Forall_fmap, Forall_true.
Qed.

(** ** The classifier reads and never writes *)

(** C8: [categorize_tickets] leaves the store as it found it, whether it
    returns or raises: every ticket has the fields it had before the call. *)
Theorem categorize_tickets_no_mutation (tickets : list loc) (h : heap) :
  (categorize_tickets tickets h).1 = h ∧
  ∀ t : loc, (categorize_tickets tickets h).1 !!! t = h !!! t.
Proof. split; [|intros t]; by rewrite categorize_tickets_heap. Qed.

(** ** Tickets that miss a required field *)

(** The counterexample to C6 as stated: a ticket without a type, and an
    ordinary ticket without a status, make the classifier raise the built-in
    [KeyError] for the missing key, which is no [MalformedTicketError]. *)
Lemma missing_field_raises_KeyError :
  categorize_tickets [2%nat] heap1 = (heap1, inl (KeyError "type")) ∧
  categorize_tickets [0; 3]%nat heap1 = (heap1, inl (KeyError "status")) ∧
  KeyError "type" ≠ UserError "MalformedTicketError" ∧
  KeyError "status" ≠ UserError "MalformedTicketError".
Proof. split_and!; [vm_compute; reflexivity..|done|done]. Qed.

Lemma first_such {A} (P : A → Prop) (l : list A) :
  (∀ x, P x ∨ ¬ P x) → (∃ x, x ∈ l ∧ P x) →
  ∃ pre x post, l = pre ++ x :: post ∧ Forall (λ y, ¬ P y) pre ∧ P x.
Proof.
  intros Hdec. induction l as [|y l IH]; intros (x & Hin & Hx).
  { by apply elem_of_nil in Hin. }
  destruct (Hdec y) as [Hy|Hy].
  { exists [], y, l. split; [done|]. by split. }
  apply elem_of_cons in Hin as [->|Hin]; [done|].
  destruct IH as (pre & z & post & -> & Hpre & Hz); [eauto|].
  exists (y :: pre), z, post. split; [done|]. split; [by constructor|done].
Qed.

Lemma missing_required_dec h t : missing_required h t ∨ ¬ missing_required h t.
Proof.
  unfold missing_required.
  destruct (dict_get "type" (h !!! t)) eqn:Ht; [|by left; left].
  destruct (is_risk h t) eqn:Hr; [right; by intros [?|[? ?]]|].
  destruct (dict_get "status" (h !!! t)) eqn:Hs; [right; by intros [?|[? ?]]|].
  left. by right.
Qed.

Lemma categorize_ticket_missing_key acc t h :
  missing_required h t →
  categorize_ticket acc t h = (h, inl (KeyError (missing_key h t))).
Proof.
  unfold missing_required, missing_key, is_risk, categorize_ticket. munfold.
  intros [Ht|[Hr Hs]].
  - by rewrite Ht.
  - destruct (dict_get "type" (h !!! t)) as [ty|]; [|done]. by rewrite Hr, Hs.
Qed.

Lemma categorize_ticket_unhashable acc t h :
  ¬ missing_required h t → unhashable_status h t = true →
  categorize_ticket acc t h = (h, inl TypeError).
Proof.
  unfold missing_required, unhashable_status, is_risk, categorize_ticket. munfold.
  intros Hm Hu. destruct (dict_get "type" (h !!! t)) as [ty|]; [|by destruct Hm; left].
  destruct (py_eq ty (VStr "Risk")); [done|].
  destruct (dict_get "status" (h !!! t)) as [[]|]; done.
Qed.

Lemma classifiable_hashable h t :
  ¬ missing_required h t → unhashable_status h t = false → classifiable h t.
Proof.
  unfold missing_required, unhashable_status, classifiable. intros Hm Hu.
  destruct (dict_get "type" (h !!! t)) as [ty|] eqn:Ht; [|by destruct Hm; left].
  split; [done|]. intros Hr. rewrite Hr in Hu, Hm.
  destruct (dict_get "status" (h !!! t)) as [st|]; [|destruct Hm; by right].
  exists st. split; [done|]. by destruct (hashable st).
Qed.

Lemma Forall_classifiable h l :
  Forall (λ t, ¬ missing_required h t) l →
  Forall (λ t, unhashable_status h t = false) l →
  Forall (classifiable h) l.
Proof.
  rewrite !Forall_forall. intros Hm Hu t Hin. apply classifiable_hashable; auto.
Qed.

Lemma existsb_first {A} (f : A → bool) (l : list A) :
  existsb f l = true →
  ∃ pre x post, l = pre ++ x :: post ∧ Forall (λ y, f y = false) pre ∧ f x = true.
Proof.
  induction l as [|y l IH]; simpl; [done|]. destruct (f y) eqn:Hy; simpl.
  - intros _. exists [], y, l. split; [done|]. by split.
  - intros (pre & x & post & -> & Hpre & Hx)%IH.
    exists (y :: pre), x, post. split; [done|]. split; [by constructor|done].
Qed.

Lemma existsb_none {A} (f : A → bool) (l : list A) :
  existsb f l = false → Forall (λ y, f y = false) l.
Proof.
  induction l as [|y l IH]; simpl; [done|]. intros [? ?]%orb_false_iff.
  constructor; auto.
Qed.

Lemma foldM_categorize_stops acc pre t post h e :
  Forall (classifiable h) pre →
  (∀ acc', categorize_ticket acc' t h = (h, inl e)) →
  foldM categorize_ticket acc (pre ++ t :: post) h = (h, inl e).
Proof.
  intros Hpre Ht. rewrite foldM_app, foldM_categorize_classifiable by done.
  cbn [foldM]. by rewrite run_bind, Ht.
Qed.

(** C6, amended: every ticket list in which some ticket lacks its type, or
    some ticket that is not a risk lacks its status, has a first such
    ticket, and [categorize_tickets] raises there and returns nothing.  The
    exception is the built-in [KeyError] naming the key that this first
    ticket lacks, "type" or "status", unless an earlier ticket that is not a
    risk has an unhashable status, for which it is [TypeError]; it is never
    an exception class of the program's own.  The store is unchanged. *)
Theorem categorize_tickets_missing_field :
  (∀ (tickets : list loc) (h : heap),
     (∃ t, t ∈ tickets ∧ missing_required h t) →
     ∃ pre t post,
       tickets = pre ++ t :: post ∧
       Forall (λ t', ¬ missing_required h t') pre ∧ missing_required h t) ∧
  (∀ (pre post : list loc) (t : loc) (h : heap),
     Forall (λ t', ¬ missing_required h t') pre →
     missing_required h t →
     ∃ e, categorize_tickets (pre ++ t :: post) h = (h, inl e) ∧
          (existsb (unhashable_status h) pre = false →
           (dict_get "type" (h !!! t) = None → e = KeyError "type") ∧
           (is_Some (dict_get "type" (h !!! t)) → e = KeyError "status")) ∧
          (existsb (unhashable_status h) pre = true → e = TypeError) ∧
          ∀ name, e ≠ UserError name).
Proof.
  split.
  { intros tickets h. apply first_such, missing_required_dec. }
  intros pre post t h Hpre Hmiss.
  exists (if existsb (unhashable_status h) pre then TypeError
          else KeyError (missing_key h t)).
  split; [|split_and!].
  - rewrite categorize_tickets_run.
    destruct (existsb (unhashable_status h) pre) eqn:Hex.
    + apply existsb_first in Hex as (p1 & u & p2 & -> & Hp1 & Hu).
      apply Forall_app in Hpre as [Hm1 [Hmu _]%Forall_cons].
      rewrite <-app_assoc, <-app_comm_cons.
      rewrite (foldM_categorize_stops _ p1 u _ h TypeError); [done|..].
      * by apply Forall_classifiable.
      * intros acc'. by apply categorize_ticket_unhashable.
    + apply existsb_none in Hex.
      rewrite (foldM_categorize_stops _ pre t post h (KeyError (missing_key h t)));
        [done|..].
      * by apply Forall_classifiable.
      * intros acc'. by apply categorize_ticket_missing_key.
  - intros ->. unfold missing_key. split; [by intros ->|by intros [ty ->]].
  - by intros ->.
  - intros name. by destruct (existsb _ pre).
Qed.

Lemma categorize_tickets_missing_field_witness :
  categorize_tickets ([0; 4]%nat ++ 3%nat :: [2%nat]) heap1
  = (heap1, inl (KeyError "status")).
Proof.
  destruct (proj2 categorize_tickets_missing_field [0; 4]%nat [2%nat] 3%nat heap1)
    as (e & -> & Hkey & _).
  - apply Forall_cons_2; [|apply Forall_cons_2; [|apply Forall_nil_2]];
      intros [H|[H1 H2]]; vm_compute in *; congruence.
  - right. split; reflexivity.
  - destruct (Hkey eq_refl) as [_ Hstatus]. rewrite Hstatus; [reflexivity|by eexists].
Defined.

(** ** The only exception of the sort *)

Lemma py_lt_inl : ∀ a b e, py_lt a b = inl e → e = TypeError.
Proof.
  fix IH 1. intros [| | | |xs|] [| | | |ys|] e; simpl;
    try (by intros [= <-]); try done.
  revert ys. induction xs as [|x xs IHxs]; intros [|y ys]; try done.
  destruct (py_eq x y); [apply IHxs|apply IH].
Qed.

Lemma insort_inl x l e : insort x l = inl e → e = TypeError.
Proof.
  induction l as [|y l IH]; simpl; [done|].
  destruct (py_lt x.1 y.1) as [e'|[|]] eqn:El; [|done|].
  - intros [= <-]. by eapply py_lt_inl.
  - destruct (insort x l); [|done]. intros [= <-]. by apply IH.
Qed.

Lemma sort_into_inl acc l e : sort_into acc l = inl e → e = TypeError.
Proof.
  revert acc. induction l as [|x l IH]; intros acc; simpl; [done|].
  destruct (insort x acc) as [e'|acc'] eqn:Ei; [|apply IH].
  intros [= <-]. by eapply insort_inl.
Qed.

Lemma sorted_of_inl h l e : sorted_of h l = inl e → e = TypeError.
Proof.
  unfold sorted_of. destruct (sort_into [] (keyed h l)) eqn:E; [|done].
  intros [= <-]. by eapply sort_into_inl.
Qed.

(** Sorting the buckets can only fail with the [TypeError] of a comparison
    between start dates that are not comparable. *)
Lemma sort_buckets_inl ts h h' e : sort_buckets ts h = (h', inl e) → e = TypeError.
Proof.
  revert h'. induction ts as [|kv ts IH]; intros h'; [done|].
  rewrite sort_buckets_cons.
  destruct (sorted_of h kv.2) as [e'|l] eqn:E.
  - intros [= _ <-]. by eapply sorted_of_inl.
  - destruct (sort_buckets ts h) as [h1 [e'|ts']]; [|done].
    intros [= _ <-]. by eapply IH.
Qed.

(** ** What the classifier does not read *)

Lemma categorize_ticket_agree acc t h h2 :
  cat_agree h h2 → (categorize_ticket acc t h).2 = (categorize_ticket acc t h2).2.
Proof.
  intros Hag. destruct (Hag t) as (Hty & Hst & _).
  unfold is_risk in Hst. unfold categorize_ticket. munfold. rewrite <-Hty.
  destruct (dict_get "type" (h !!! t)) as [ty|]; [|done].
  destruct (py_eq ty (VStr "Risk")); [done|]. rewrite <-Hst by done.
  destruct (dict_get "status" (h !!! t)) as [[| | |s| |]|]; try done.
  by destruct (summary_has s acc.1).
Qed.

Lemma foldM_categorize_agree acc tickets h h2 :
  cat_agree h h2 →
  (foldM categorize_ticket acc tickets h).2 = (foldM categorize_ticket acc tickets h2).2.
Proof.
  intros Hag. revert acc. induction tickets as [|t tickets IH]; intros acc; [done|].
  cbn [foldM]. rewrite !run_bind.
  pose proof (categorize_ticket_agree acc t h h2 Hag) as Hr.
  pose proof (categorize_ticket_heap acc t h) as Hh.
  pose proof (categorize_ticket_heap acc t h2) as Hh2.
  destruct (categorize_ticket acc t h) as [h' [e|acc1]],
           (categorize_ticket acc t h2) as [h2' [e2|acc2]];
    simpl in *; simplify_eq; [done|]. apply IH.
Qed.

Lemma sorted_of_agree h h2 l : cat_agree h h2 → sorted_of h l = sorted_of h2 l.
Proof.
  intros Hag. unfold sorted_of, keyed.
  assert (((λ x, (start_date_key (h !!! x), x)) <$> l)
          = ((λ x, (start_date_key (h2 !!! x), x)) <$> l)) as ->; [|done].
  apply list_fmap_ext. intros i x _. f_equal. apply Hag.
Qed.

Lemma sort_buckets_agree ts h h2 :
  cat_agree h h2 → (sort_buckets ts h).2 = (sort_buckets ts h2).2.
Proof.
  intros Hag. induction ts as [|kv ts IH]; [done|].
  rewrite !sort_buckets_cons, <-(sorted_of_agree h h2) by done.
  destruct (sorted_of h kv.2) as [e|l]; [done|].
  destruct (sort_buckets ts h) as [h' [e|ts1]], (sort_buckets ts h2) as [h2' [e2|ts2]];
    simpl in *; simplify_eq; done.
Qed.

Lemma categorize_tickets_agree tickets h h2 :
  cat_agree h h2 →
  (categorize_tickets tickets h).2 = (categorize_tickets tickets h2).2.
Proof.
  intros Hag. rewrite !categorize_tickets_run.
  pose proof (foldM_categorize_agree (tickets_summary_init, []) tickets h h2 Hag) as Hr.
  pose proof (foldM_categorize_heap (tickets_summary_init, []) tickets h) as Hh.
  pose proof (foldM_categorize_heap (tickets_summary_init, []) tickets h2) as Hh2.
  destruct (foldM _ _ _ h) as [h' [e|acc]], (foldM _ _ _ h2) as [h2' [e2|acc2]];
    simpl in *; simplify_eq; [done|].
  pose proof (sort_buckets_agree acc2.1 h h2 Hag) as Hs.
  destruct (sort_buckets acc2.1 h) as [h' [e|ts1]],
           (sort_buckets acc2.1 h2) as [h2' [e2|ts2]];
    simpl in *; simplify_eq; done.
Qed.





(** ** The buckets *)

Lemma has_status_recognized h k t :
  k ∈ status_keys → has_status h k t = true → recognized h t = true.
Proof.
  intros Hk Hs. unfold recognized. apply existsb_exists. exists k.
  split; [by apply list_elem_of_In|done].
Qed.

Lemma has_status_unique h k k' t :
  has_status h k t = true → has_status h k' t = true → k = k'.
Proof.
  unfold has_status. destruct (dict_get "status" (h !!! t)) as [[| | |s| |]|]; try done.
  by intros <-%String.eqb_eq <-%String.eqb_eq.
Qed.

Lemma in_bucket_has_status h k t :
  in_bucket h k t = true → is_risk h t = false ∧ has_status h k t = true.
Proof. unfold in_bucket. by destruct (is_risk h t). Qed.

(** The bucket under a key of the returned summary is the sorted list of the
    tickets that belong under it. *)
Lemma categorize_tickets_bucket tickets h h' ts risks k bucket :
  categorize_tickets tickets h = (h', inr (ts, risks)) →
  (k, bucket) ∈ ts →
  k ∈ status_keys ∧ sorted_of h (filter (in_bucket h k) tickets) = inr bucket.
Proof.
  intros [_ Hts]%categorize_tickets_inr [i Hi]%list_elem_of_lookup.
  destruct (Forall2_lookup_r _ _ _ _ _ Hts Hi) as (k0 & Hk0 & Hk & Hs).
  simpl in *. subst k0. split; [|done]. by eapply list_elem_of_lookup_2.
Qed.

(** C4: every bucket returned by [categorize_tickets] is in ascending order
    of start date, a ticket without a start date counting as the empty
    string, which is the least date; and the sort is stable: the tickets of
    a bucket that have the same date are in the order in which the input
    lists them. *)
Theorem categorize_tickets_buckets_sorted
    (tickets : list loc) (h h' : heap) (ts : summary) (risks : list loc) :
  categorize_tickets tickets h = (h', inr (ts, risks)) →
  (∀ t, t ∈ tickets → is_risk h t = false → recognized h t = true →
        start_date_is_str h t) →
  ∀ k bucket, (k, bucket) ∈ ts →
    StronglySorted (date_le h) bucket ∧
    (∀ s, filter (λ t, date_of h t = s) bucket
          = filter (λ t, date_of h t = s) (filter (in_bucket h k) tickets)) ∧
    (∀ t, dict_get "start_date" (h !!! t) = None →
          date_of h t = "" ∧ ∀ t', date_le h t t').
Proof.
  intros Hrun Hstr k bucket Hin.
  destruct (categorize_tickets_bucket _ _ _ _ _ _ _ Hrun Hin) as [Hk Hs].
  assert (Forall (start_date_is_str h) (filter (in_bucket h k) tickets)) as Hall.
  { apply Forall_forall. intros t [Hb Ht]%list_elem_of_filter.
    apply Is_true_true, in_bucket_has_status in Hb as [Hr Hst].
    apply Hstr; [done..|]. by eapply has_status_recognized. }
  destruct (sorted_of_str_spec h _ bucket Hall Hs) as (Hsorted & _ & Hstable).
  split_and!; [done..|].
  intros t Hnone. assert (date_of h t = "") as Hd.
  { unfold date_of, start_date_key. by rewrite Hnone. }
  split; [done|]. intros t'. unfold date_le. rewrite Hd. apply string_leb_empty.
Qed.

Lemma categorize_tickets_buckets_sorted_witness :
  StronglySorted (date_le heap2) [11; 12; 13; 10]%nat ∧
  (∀ s, filter (λ t, date_of heap2 t = s) [11; 12; 13; 10]%nat
        = filter (λ t, date_of heap2 t = s)
            (filter (in_bucket heap2 "in_progress") [10; 14; 11; 12; 13]%nat)) ∧
  (∀ t, dict_get "start_date" (heap2 !!! t) = None →
        date_of heap2 t = "" ∧ ∀ t', date_le heap2 t t').
Proof.
  apply (categorize_tickets_buckets_sorted [10; 14; 11; 12; 13]%nat heap2 heap2
           [("open", []); ("blocked", []); ("in_progress", [11; 12; 13; 10]%nat);
            ("in_review", []); ("done", [])] [14%nat]).
  - vm_compute. reflexivity.
  - intros t Hin _ _.
    repeat (apply elem_of_cons in Hin as [->|Hin]; [vm_compute; eauto|]).
    by apply elem_of_nil in Hin.
  - do 2 apply list_elem_of_further. apply list_elem_of_here.
Defined.

(** ** The partition *)

Lemma sorted_of_perm h l b : sorted_of h l = inr b → b ≡ₚ l.
Proof.
  unfold sorted_of. destruct (sort_into [] (keyed h l)) as [|r] eqn:E; [done|].
  intros [= <-]. rewrite (sort_into_perm _ _ _ E). simpl. unfold keyed.
  rewrite <-list_fmap_compose. rewrite <-(list_fmap_id l) at 2.
  apply reflexive_eq. by apply list_fmap_ext.
Qed.

Lemma filter_app_disjoint (P Q : loc → bool) (l : list loc) :
  (∀ x, P x = true → Q x = true → False) →
  filter P l ++ filter Q l ≡ₚ filter (λ x, P x || Q x) l.
Proof.
  intros Hdis. induction l as [|x l IH]; [done|].
  rewrite !filter_cons. specialize (Hdis x).
  destruct (P x), (Q x); simpl.
  - by destruct Hdis.
  - by rewrite IH.
  - by rewrite <-Permutation_middle, IH.
  - done.
Qed.

Lemma in_bucket_disjoint h k k' t :
  k ≠ k' → in_bucket h k t = true → in_bucket h k' t = true → False.
Proof.
  intros Hne [_ H1]%in_bucket_has_status [_ H2]%in_bucket_has_status.
  by apply Hne, (has_status_unique h k k' t).
Qed.

(** The risks and the five buckets, put together, are the tickets that are a
    risk or have a recognized status. *)
Lemma partition_union h l :
  filter (is_risk h) l ++
  filter (in_bucket h "open") l ++ filter (in_bucket h "blocked") l ++
  filter (in_bucket h "in_progress") l ++ filter (in_bucket h "in_review") l ++
  filter (in_bucket h "done") l
  ≡ₚ filter (λ t, is_risk h t || recognized h t) l.
Proof.
  rewrite (filter_app_disjoint (in_bucket h "in_review") (in_bucket h "done")).
  2:{ intros x H1 H2. refine (in_bucket_disjoint h _ _ x _ H1 H2); done. }
  rewrite (filter_app_disjoint (in_bucket h "in_progress")).
  2:{ intros x H1 [H2|H2]%orb_true_iff; refine (in_bucket_disjoint h _ _ x _ H1 H2); done. }
  rewrite (filter_app_disjoint (in_bucket h "blocked")).
  2:{ intros x H1 [H2|[H2|H2]%orb_true_iff]%orb_true_iff;
        refine (in_bucket_disjoint h _ _ x _ H1 H2); done. }
  rewrite (filter_app_disjoint (in_bucket h "open")).
  2:{ intros x H1 [H2|[H2|[H2|H2]%orb_true_iff]%orb_true_iff]%orb_true_iff;
        refine (in_bucket_disjoint h _ _ x _ H1 H2); done. }
  rewrite (filter_app_disjoint (is_risk h)).
  2:{ intros x H1 H2. unfold in_bucket in H2. rewrite H1 in H2. done. }
  apply reflexive_eq, list_filter_iff. intros t.
  unfold recognized, in_bucket, status_keys. simpl.
  destruct (is_risk h t), (has_status h "open" t), (has_status h "blocked" t),
    (has_status h "in_progress" t), (has_status h "in_review" t),
    (has_status h "done" t); done.
Qed.

Lemma summary_get_absent k (ts : summary) : k ∉ ts.*1 → summary_get k ts = [].
Proof.
  unfold summary_get. induction ts as [|[k' b] ts IH]; [done|].
  rewrite fmap_cons, not_elem_of_cons. intros [Hne Hk]. cbn [find fst].
  rewrite (proj2 (String.eqb_neq k' k)) by done. by apply IH.
Qed.

(** C2: when [categorize_tickets] returns, every ticket is in exactly one
    place.  A ticket whose type is "Risk" is on the risk list, whatever its
    status, and in no bucket; any other ticket is in the bucket of its status
    when that is one of the five keys, and in no other; a ticket that is no
    risk and has an unrecognized status is nowhere.  The risk list and the
    buckets together are the input tickets that are a risk or have a
    recognized status.  The call does return when every ticket has a type,
    every ticket that is not a risk has a hashable status, and the start
    dates of the bucketed tickets are strings. *)
Theorem categorize_tickets_partition (tickets : list loc) (h : heap) :
  (∀ h' ts risks,
     categorize_tickets tickets h = (h', inr (ts, risks)) →
     ts.*1 = status_keys ∧
     risks = filter (is_risk h) tickets ∧
     (∀ k, k ∈ status_keys →
           summary_get k ts ≡ₚ filter (in_bucket h k) tickets) ∧
     (∀ k, k ∉ status_keys → summary_get k ts = []) ∧
     (risks ++ concat ts.*2)
       ≡ₚ filter (λ t, is_risk h t || recognized h t) tickets ∧
     (∀ t, t ∈ risks → ∀ k, t ∉ summary_get k ts) ∧
     (∀ t k k', t ∈ summary_get k ts → t ∈ summary_get k' ts → k = k') ∧
     (∀ t, t ∈ tickets → is_risk h t = false → recognized h t = false →
           (t ∉ risks) ∧ ∀ k, t ∉ summary_get k ts)) ∧
  (Forall (classifiable h) tickets →
   (∀ t, t ∈ tickets → is_risk h t = false → recognized h t = true →
         start_date_is_str h t) →
   ∃ ts risks, categorize_tickets tickets h = (h, inr (ts, risks))).
Proof.
  split.
  - intros h' ts risks Hrun.
    destruct (categorize_tickets_inr _ _ _ _ _ Hrun) as [-> Hts].
    unfold status_keys in Hts.
    repeat match goal with
           | H : Forall2 _ (_ :: _) _ |- _ =>
               apply Forall2_cons_inv_l in H as ([? ?] & ? & [? ?] & ? & ->)
           | H : Forall2 _ [] _ |- _ => apply Forall2_nil_inv_l in H as ->
           end.
    simpl in *. subst.
    repeat match goal with
           | H : sorted_of _ _ = inr _ |- _ => apply sorted_of_perm in H
           end.
    set (ts := [("open", _); ("blocked", _); ("in_progress", _);
                ("in_review", _); ("done", _)]).
    assert (∀ k, k ∈ status_keys →
                 summary_get k ts ≡ₚ filter (in_bucket h k) tickets) as Hget.
    { intros k Hk. unfold status_keys in Hk.
      repeat (apply elem_of_cons in Hk as [->|Hk]; [done|]).
      by apply elem_of_nil in Hk. }
    assert (∀ k, k ∉ status_keys → summary_get k ts = []) as Hnot.
    { intros k Hk. by apply summary_get_absent. }
    assert (∀ t k, t ∈ summary_get k ts → t ∈ tickets ∧ in_bucket h k t = true)
      as Hmem.
    { intros t k Ht. destruct (decide (k ∈ status_keys)) as [Hk|Hk].
      - rewrite (Hget k Hk) in Ht. apply list_elem_of_filter in Ht as [Hb Ht].
        split; [done|]. by apply Is_true_true.
      - rewrite (Hnot k Hk) in Ht. by apply elem_of_nil in Ht. }
    split_and!; [done|done|done|done| | | |].
    + unfold ts. simpl. rewrite app_nil_r.
      repeat match goal with H : _ ≡ₚ filter _ tickets |- _ => rewrite H; clear H end.
      apply partition_union.
    + intros t [Hr _]%list_elem_of_filter k [_ Hb]%Hmem.
      apply Is_true_true in Hr. unfold in_bucket in Hb. by rewrite Hr in Hb.
    + intros t k k' [_ [_ Hk1]%in_bucket_has_status]%Hmem
        [_ [_ Hk2]%in_bucket_has_status]%Hmem.
      by eapply has_status_unique.
    + intros t Hin Hr Hu. split.
      * intros [Hr' _]%list_elem_of_filter. by rewrite Hr in Hr'.
      * intros k Hk. destruct (decide (k ∈ status_keys)) as [Hks|Hks].
        -- apply Hmem in Hk as [_ [_ Hs]%in_bucket_has_status].
           rewrite (has_status_recognized h k t) in Hu; done.
        -- rewrite (Hnot k Hks) in Hk. by apply elem_of_nil in Hk.
  - intros Hcl Hstr.
    rewrite categorize_tickets_run, foldM_categorize_classifiable by done.
    destruct (sort_buckets_returns (placed h tickets (tickets_summary_init, [])).1 h)
      as [ts Hts]; [|rewrite Hts; eauto].
    unfold placed, tickets_summary_init. simpl.
    repeat constructor; simpl; eexists; apply sorted_of_str;
      apply Forall_forall; intros t [Hb Ht]%list_elem_of_filter;
      apply Is_true_true, in_bucket_has_status in Hb as [Hr Hst];
      (apply Hstr; [done..|]); (eapply has_status_recognized; [|done]);
      unfold status_keys; set_solver.
Qed.

Lemma categorize_tickets_partition_witness :
  ([14%nat] ++ concat [("open", []); ("blocked", []);
                       ("in_progress", [11; 12; 13; 10]%nat);
                       ("in_review", []); ("done", [])].*2)
  ≡ₚ filter (λ t, is_risk heap2 t || recognized heap2 t) [10; 14; 11; 12; 13]%nat.
Proof.
  destruct (proj1 (categorize_tickets_partition [10; 14; 11; 12; 13]%nat heap2)
              heap2
              [("open", []); ("blocked", []); ("in_progress", [11; 12; 13; 10]%nat);
               ("in_review", []); ("done", [])]
              [14%nat]) as (_ & _ & _ & _ & H & _).
  - vm_compute. reflexivity.
  - exact H.
Defined.

(** * Further properties of the reconciler *)

Lemma last_write_None t cs : t ∉ cs.*1 → last_write t cs = None.
Proof.
  intros Hnot. unfold last_write. rewrite (filter_none _ cs); [done|].
  apply Forall_forall. intros c Hc Heq. apply Hnot. rewrite <-Heq.
  by apply list_elem_of_fmap_2.
Qed.

Lemma last_write_is_Some t cs : t ∈ cs.*1 → is_Some (last_write t cs).
Proof.
  intros (c & -> & Hc)%list_elem_of_fmap. unfold last_write.
  assert (c ∈ filter (λ c0 : loc * string, c0.1 = c.1) cs) as Hin
    by by apply list_elem_of_filter.
  destruct (last (filter _ cs)) eqn:E; [by eexists|].
  apply last_None in E. rewrite E in Hin. by apply elem_of_nil in Hin.
Qed.

(** The call writes nothing but [completion_date], and only to the tickets
    it returns: every other field of every ticket, and every ticket that is
    not in the returned list, is as before, also when the call raises. *)
Theorem get_recent_done_tickets_frame
    (audit_logs : list dict) (tickets : list loc) (h h' : heap) (r : exn + list loc) :
  get_recent_done_tickets audit_logs tickets h = (h', r) →
  (∀ (t : loc) (k : string),
     k ≠ "completion_date" → dict_get k (h' !!! t) = dict_get k (h !!! t)) ∧
  (∀ out, r = inr out → ∀ t : loc, t ∉ out → h' !! t = h !! t).
Proof.
  rewrite get_recent_done_tickets_plan. intros [= <- <-]. split.
  - intros t k Hk. rewrite commit_lookup_total.
    destruct (last_write t _); [|done]. by rewrite dict_get_set_ne.
  - intros out Hout t Ht. rewrite commit_lookup.
    destruct (plan h tickets audit_logs).2; [done|]. injection Hout as <-.
    by rewrite last_write_None.
Qed.

Lemma get_recent_done_tickets_frame_witness :
  (∀ (t : loc) (k : string),
     k ≠ "completion_date" →
     dict_get k ((get_recent_done_tickets [log59; log999] [0; 1]%nat heap0).1 !!! t)
     = dict_get k (heap0 !!! t)) ∧
  (∀ out, (inr [1%nat] : exn + list loc) = inr out → ∀ t : loc, t ∉ out →
     (get_recent_done_tickets [log59; log999] [0; 1]%nat heap0).1 !! t = heap0 !! t).
Proof.
  apply (get_recent_done_tickets_frame [log59; log999] [0; 1]%nat heap0).
  vm_compute. reflexivity.
Defined.

Lemma length_omap_le {A B} (f : A → option B) (l : list A) :
  (length (omap f l) ≤ length l)%nat.
Proof.
  induction l as [|x l IH]; [done|]. rewrite omap_cons.
  destruct (f x); simpl; lia.
Qed.

(** What the call returns: at most one ticket per audit-log entry, each of
    them a ticket of the input list that carries an id, and each with a
    string under [completion_date] once the call is over. *)
Theorem get_recent_done_tickets_output
    (audit_logs : list dict) (tickets : list loc) (h h' : heap) (out : list loc) :
  get_recent_done_tickets audit_logs tickets h = (h', inr out) →
  (length out ≤ length audit_logs)%nat ∧
  ∀ t, t ∈ out →
    t ∈ tickets ∧ is_Some (dict_get "id" (h !!! t)) ∧
    ∃ s, dict_get "completion_date" (h' !!! t) = Some (VStr s).
Proof.
  rewrite get_recent_done_tickets_plan.
  destruct (plan h tickets audit_logs).2 eqn:Hp; [done|]. intros [= <- <-].
  destruct (plan_contributions h tickets audit_logs Hp) as (_ & Hout & _).
  split; [rewrite Hout; apply length_omap_le|].
  intros t Ht. split_and!.
  - rewrite Hout in Ht. apply list_elem_of_omap in Ht as (log & _ & Hr).
    apply reconciled_Some in Hr as (_ & _ & aid & _ & [Hin _]%find_some).
    by apply list_elem_of_In.
  - rewrite Hout in Ht. apply list_elem_of_omap in Ht as (log & _ & Hr).
    apply reconciled_Some in Hr as (_ & _ & aid & _ & [_ Hid]%find_some).
    unfold has_id in Hid. by destruct (dict_get "id" (h !!! t)).
  - rewrite commit_lookup_total.
    destruct (last_write_is_Some t _ Ht) as [s ->]. exists s.
    by rewrite dict_get_set_eq.
Qed.

Lemma get_recent_done_tickets_output_witness :
  (length [1; 0; 1]%nat ≤ length [log59; log58; log999; log59_again])%nat ∧
  ∀ t, t ∈ [1; 0; 1]%nat →
    t ∈ [0; 1]%nat ∧ is_Some (dict_get "id" (heap0 !!! t)) ∧
    ∃ s, dict_get "completion_date"
           ((get_recent_done_tickets [log59; log58; log999; log59_again]
               [0; 1]%nat heap0).1 !!! t) = Some (VStr s).
Proof.
  apply (get_recent_done_tickets_output [log59; log58; log999; log59_again]
           [0; 1]%nat heap0).
  vm_compute. reflexivity.
Defined.

Lemma marks_done_skips log h :
  (∃ a, dict_get "action" log = Some a ∧ py_eq a (VStr "update") = false) ∨
  (is_update log ∧ ∃ c, dict_get "changes" log = Some c ∧ truthy c = false) →
  (marks_done log h).2 = inr false.
Proof.
  unfold marks_done, is_update. munfold.
  intros [(a & -> & Ha)|(-> & c & -> & Hc)]; simpl; [by rewrite Ha|].
  by rewrite Hc.
Qed.

(** The condition of the loop is evaluated left to right and stops at the
    first part that fails: an entry whose action is not "update", or whose
    changes are empty or null, is passed over without an error whatever
    else it lacks, and the call behaves as if the entry were not there. *)
Theorem get_recent_done_tickets_short_circuit
    (pre post : list dict) (log : dict) (tickets : list loc) (h : heap) :
  (∃ a, dict_get "action" log = Some a ∧ py_eq a (VStr "update") = false) ∨
  (is_update log ∧ ∃ c, dict_get "changes" log = Some c ∧ truthy c = false) →
  get_recent_done_tickets (pre ++ log :: post) tickets h =
  get_recent_done_tickets (pre ++ post) tickets h.
Proof.
  intros Hskip. rewrite !get_recent_done_tickets_plan.
  assert (plan h tickets (pre ++ log :: post) = plan h tickets (pre ++ post)) as ->;
    [|done].
  assert (step_of h tickets log = inr None) as Hstep.
  { unfold step_of. by rewrite (marks_done_skips log h Hskip). }
  by rewrite !plan_app, plan_cons, Hstep.
Qed.

Lemma get_recent_done_tickets_short_circuit_witness :
  get_recent_done_tickets ([log59] ++ log_created :: [log58]) [0; 1]%nat heap0 =
  get_recent_done_tickets ([log59] ++ [log58]) [0; 1]%nat heap0 ∧
  get_recent_done_tickets ([log59] ++ log_no_changes :: [log58]) [0; 1]%nat heap0 =
  get_recent_done_tickets ([log59] ++ [log58]) [0; 1]%nat heap0.
Proof.
  split.
  - apply get_recent_done_tickets_short_circuit. left. by eexists.
  - apply get_recent_done_tickets_short_circuit. right. split; [done|by eexists].
Defined.

Lemma marks_done_AttributeError log h c :
  is_update log →
  dict_get "changes" log = Some c → truthy c = true →
  (∀ d, c ≠ VDict d) ∨
  (∃ d v, c = VDict d ∧ dict_get "status" d = Some v ∧ ∀ delta, v ≠ VDict delta) →
  (marks_done log h).2 = inl AttributeError.
Proof.
  unfold marks_done, is_update. munfold. intros -> -> Ht. simpl. rewrite Ht.
  intros [Hnd|(d & v & -> & Hs & Hv)].
  - destruct c; try done. by destruct (Hnd kvs).
  - rewrite Hs. simpl. destruct v; try done. by destruct (Hv kvs).
Qed.

(** An update whose changes are there but are not a mapping, or whose status
    delta is there but is not a mapping (a null, say), makes the call raise
    [AttributeError] at that entry: it is aborted as for a malformed date. *)
Theorem get_recent_done_tickets_bad_changes
    (pre post : list dict) (log : dict) (tickets : list loc)
    (h h1 : heap) (out : list loc) (c : value) :
  get_recent_done_tickets pre tickets h = (h1, inr out) →
  is_update log →
  dict_get "changes" log = Some c → truthy c = true →
  (∀ d, c ≠ VDict d) ∨
  (∃ d v, c = VDict d ∧ dict_get "status" d = Some v ∧ ∀ delta, v ≠ VDict delta) →
  get_recent_done_tickets (pre ++ log :: post) tickets h = (h1, inl AttributeError).
Proof.
  intros Hpre Hu Hc Ht Hbad. rewrite get_recent_done_tickets_plan in Hpre |- *.
  assert (step_of h tickets log = inl AttributeError) as Hstep.
  { unfold step_of. by rewrite (marks_done_AttributeError log h c). }
  rewrite plan_app, plan_cons, Hstep.
  destruct (plan h tickets pre) as [cs [e|]]; simpl in *; [done|].
  injection Hpre as <- _. by rewrite app_nil_r.
Qed.

Lemma get_recent_done_tickets_bad_changes_witness :
  get_recent_done_tickets ([log58] ++ log_null_status :: [log59]) [0; 1]%nat heap0
  = (<[0%nat := dict_set "completion_date" (VStr "2024-11-19 09:15:00") ticket58]> heap0,
     inl AttributeError).
Proof.
  apply (get_recent_done_tickets_bad_changes [log58] [log59] log_null_status
           [0; 1]%nat heap0 _ [0%nat] (VDict [("status", VNone)])).
  - vm_compute. reflexivity.
  - reflexivity.
  - reflexivity.
  - reflexivity.
  - right. exists [("status", VNone)], VNone. by split_and!.
Defined.

Lemma datetime_strptime_inl s e : datetime.strptime s = inl e → e = ValueError.
Proof.
  unfold datetime.strptime. repeat case_match; by intros [= <-].
Qed.

Lemma marks_done_inl log h e :
  (marks_done log h).2 = inl e →
  e = KeyError "action" ∨ e = KeyError "changes" ∨ e = AttributeError.
Proof.
  unfold marks_done. munfold. repeat case_match; simplify_eq/=; intros [= <-]; eauto.
Qed.

Lemma find_ticket_inl aid ts h e :
  (find_ticket aid ts h).2 = inl e → e = KeyError "id".
Proof.
  induction ts as [|t ts IH]; simpl; [done|]. munfold.
  destruct (dict_get "id" (h !!! t)); simpl; [|by intros [= <-]]. by case_match.
Qed.

Lemma step_of_inl h tickets log e :
  step_of h tickets log = inl e →
  e ∈ [KeyError "action"; KeyError "changes"; KeyError "auditable_id";
       KeyError "id"; KeyError "created_at"; AttributeError; TypeError; ValueError].
Proof.
  unfold step_of.
  destruct (marks_done log h).2 as [e'|[|]] eqn:Hm; [| |done].
  { intros [= <-]. apply marks_done_inl in Hm as [->|[->| ->]]; set_solver. }
  destruct (dict_get "auditable_id" log); [|intros [= <-]; set_solver].
  destruct (find_ticket _ _ h).2 as [e'|[t|]] eqn:Hf; [| |done].
  { intros [= <-]. apply find_ticket_inl in Hf as ->. set_solver. }
  destruct (dict_get "created_at" log) as [c|]; [|intros [= <-]; set_solver].
  destruct c; simpl; try (intros [= <-]; set_solver).
  unfold lift. simpl. destruct (datetime.strptime s) as [e'|] eqn:Hs; [|done].
  intros [= <-]. apply datetime_strptime_inl in Hs as ->. set_solver.
Qed.

Lemma plan_error h tickets logs e :
  (plan h tickets logs).2 = Some e →
  ∃ log, log ∈ logs ∧ step_of h tickets log = inl e.
Proof.
  induction logs as [|log logs IH]; [done|]. rewrite plan_cons.
  destruct (step_of h tickets log) as [e'|[c|]] eqn:Hs; simpl.
  - intros [= ->]. exists log. split; [by left|done].
  - intros (log' & ? & ?)%IH. exists log'. split; [by right|done].
  - intros (log' & ? & ?)%IH. exists log'. split; [by right|done].
Qed.

(** The exceptions of the reconciler: a missing key among the five it reads,
    the [AttributeError] of changes it cannot read, and the [TypeError] or
    [ValueError] of a [created_at] that is no string or is not in the
    format.  When every ticket carries an id, "id" is not among them. *)
Theorem get_recent_done_tickets_exceptions
    (audit_logs : list dict) (tickets : list loc) (h h' : heap) (e : exn) :
  get_recent_done_tickets audit_logs tickets h = (h', inl e) →
  e ∈ [KeyError "action"; KeyError "changes"; KeyError "auditable_id";
       KeyError "id"; KeyError "created_at"; AttributeError; TypeError; ValueError] ∧
  (tickets_have_ids h tickets → e ≠ KeyError "id").
Proof.
  rewrite get_recent_done_tickets_plan.
  destruct (plan h tickets audit_logs).2 as [e'|] eqn:Hp; [|done]. intros [= _ ->].
  apply plan_error in Hp as (log & _ & Hs).
  split; [by eapply step_of_inl|].
  intros Hids ->. unfold step_of in Hs.
  destruct (marks_done log h).2 as [e'|[|]] eqn:Hm; [| |done].
  { injection Hs as ->. by apply marks_done_inl in Hm as [?|[?|?]]. }
  destruct (dict_get "auditable_id" log); [|done].
  rewrite find_ticket_have_ids in Hs by done.
  destruct (find _ tickets); [|done].
  destruct (dict_get "created_at" log) as [c|]; [|done].
  destruct c; simpl in Hs; try done.
  destruct (datetime.strptime s) as [e'|] eqn:Hd; [|done].
  apply datetime_strptime_inl in Hd as ->. done.
Qed.

Lemma get_recent_done_tickets_exceptions_witness :
  ValueError ∈ [KeyError "action"; KeyError "changes"; KeyError "auditable_id";
       KeyError "id"; KeyError "created_at"; AttributeError; TypeError; ValueError] ∧
  (tickets_have_ids heap0 [0; 1]%nat → ValueError ≠ KeyError "id").
Proof.
  apply (get_recent_done_tickets_exceptions [log59_malformed; log59] [0; 1]%nat
           heap0 heap0).
  vm_compute. reflexivity.
Defined.

(** * Further properties of the classifier, and of the two together *)

Lemma cat_agree_commit cs h : cat_agree h (commit cs h).
Proof.
  intros t. rewrite commit_lookup_total. unfold start_date_key.
  destruct (last_write t cs); [|done]. by rewrite !dict_get_set_ne.
Qed.

(** The classifier does not look at what the reconciler writes: classifying
    after the reconciliation gives what classifying before it gives, so the
    order in which the handlers call the two does not matter to the
    buckets and the risk list. *)
Theorem categorize_tickets_after_reconciliation
    (audit_logs : list dict) (tickets tickets' : list loc) (h h' : heap)
    (r : exn + list loc) :
  get_recent_done_tickets audit_logs tickets h = (h', r) →
  (categorize_tickets tickets' h').2 = (categorize_tickets tickets' h).2.
Proof.
  rewrite get_recent_done_tickets_plan. intros [= <- _]. symmetry.
  apply categorize_tickets_agree, cat_agree_commit.
Qed.

Lemma categorize_tickets_after_reconciliation_witness :
  (categorize_tickets [0; 1]%nat
     (get_recent_done_tickets [log59; log58] [0; 1]%nat heap0).1).2
  = (categorize_tickets [0; 1]%nat heap0).2.
Proof.
  apply (categorize_tickets_after_reconciliation [log59; log58] [0; 1]%nat [0; 1]%nat
           heap0 _ (inr [1; 0]%nat)).
  vm_compute. reflexivity.
Defined.

(** The exceptions of the classifier: [KeyError] for a missing type or
    status, and [TypeError] for an unhashable status or for start dates that
    cannot be compared. *)
Theorem categorize_tickets_exceptions
    (tickets : list loc) (h h' : heap) (e : exn) :
  categorize_tickets tickets h = (h', inl e) →
  e = KeyError "type" ∨ e = KeyError "status" ∨ e = TypeError.
Proof.
  rewrite categorize_tickets_run.
  destruct (foldM _ _ _ h) as [h1 [e1|acc]] eqn:E.
  - intros [= _ <-].
    apply foldM_categorize_inl in E as (t & _ & [[-> _]|[[-> _]|[-> _]]]); eauto.
  - destruct (sort_buckets acc.1 h1) as [h2 [e2|ts]] eqn:Es; [|done].
    intros [= _ <-]. apply sort_buckets_inl in Es as ->. eauto.
Qed.

Lemma categorize_tickets_exceptions_witness :
  KeyError "status" = KeyError "type" ∨ KeyError "status" = KeyError "status"
  ∨ KeyError "status" = TypeError.
Proof.
  apply (categorize_tickets_exceptions [0; 3]%nat heap1 heap1).
  vm_compute. reflexivity.
Defined.

(** ** Start dates that cannot be compared *)

Lemma py_lt_unorderable a b :
  unorderable a = true ∨ unorderable b = true → py_lt a b = inl TypeError.
Proof. intros [H|H]; destruct a, b; done. Qed.

Lemma insort_orderable x acc r :
  insort x acc = inr r → acc ≠ [] →
  Forall (λ p, unorderable p.1 = false) acc →
  Forall (λ p : value * loc, unorderable p.1 = false) r.
Proof.
  intros Hr Hne Hacc. rewrite (insort_perm _ _ _ Hr). constructor; [|done].
  destruct acc as [|y acc]; [done|]. simpl in Hr.
  destruct (unorderable x.1) eqn:Hx; [|done].
  by rewrite (py_lt_unorderable x.1 y.1) in Hr by by left.
Qed.

Lemma insort_singleton x y r :
  insort x [y] = inr r → unorderable x.1 = false ∧ unorderable y.1 = false.
Proof.
  simpl. destruct (unorderable x.1) eqn:Hx.
  { by rewrite (py_lt_unorderable x.1 y.1) by by left. }
  destruct (unorderable y.1) eqn:Hy; [|done].
  by rewrite (py_lt_unorderable x.1 y.1) by by right.
Qed.

(** A sort of two or more elements that returns has compared every key. *)
Lemma sort_into_orderable acc l r :
  sort_into acc l = inr r →
  Forall (λ p, unorderable p.1 = false) acc ∨ (length acc ≤ 1)%nat →
  Forall (λ p : value * loc, unorderable p.1 = false) (acc ++ l) ∨
  (length (acc ++ l) ≤ 1)%nat.
Proof.
  revert acc. induction l as [|x l IH]; intros acc; simpl.
  - intros _ Hacc. by rewrite app_nil_r.
  - destruct (insort x acc) as [|acc'] eqn:Ei; [done|]. intros Hr Hacc.
    assert (Forall (λ p : value * loc, unorderable p.1 = false) acc' ∨ acc = [])
      as Hacc'.
    { destruct acc as [|y acc]; [by right|]. left.
      destruct Hacc as [Hacc|Hlen].
      - by eapply insort_orderable.
      - destruct acc; [|simpl in Hlen; lia].
        destruct (insort_singleton _ _ _ Ei) as [Hx Hy].
        rewrite (insort_perm _ _ _ Ei). by repeat constructor. }
    destruct Hacc' as [Hacc'| ->].
    + destruct (IH acc' Hr) as [Hall|Hlen]; [by left|..].
      * left. rewrite (insort_perm _ _ _ Ei) in Hall. simpl in Hall.
        by rewrite <-Permutation_middle.
      * right. rewrite length_app in Hlen |- *.
        rewrite (insort_perm _ _ _ Ei) in Hlen. simpl in *. lia.
    + simpl in Ei. injection Ei as <-.
      destruct (IH [x] Hr) as [Hall|Hlen]; [right; simpl; lia|by left|by right].
Qed.

Lemma sorted_of_unorderable h l t :
  t ∈ l → unorderable (start_date_key (h !!! t)) = true → (2 ≤ length l)%nat →
  sorted_of h l = inl TypeError.
Proof.
  intros Hin Hu Hlen. destruct (sorted_of h l) as [e|b] eqn:E.
  { by apply sorted_of_inl in E as ->. }
  unfold sorted_of in E.
  destruct (sort_into [] (keyed h l)) as [|r] eqn:Es; [done|].
  apply sort_into_orderable in Es as [Hall|Hl]; [..|right; simpl; lia].
  - simpl in Hall. unfold keyed in Hall. rewrite Forall_fmap, Forall_forall in Hall.
    specialize (Hall t Hin). simpl in Hall. congruence.
  - simpl in Hl. unfold keyed in Hl. rewrite length_fmap in Hl. lia.
Qed.

Lemma sort_buckets_unorderable ts h kv :
  kv ∈ ts → sorted_of h kv.2 = inl TypeError →
  sort_buckets ts h = (h, inl TypeError).
Proof.
  induction ts as [|kv' ts IH]; intros Hin Hs; [by apply elem_of_nil in Hin|].
  rewrite sort_buckets_cons.
  destruct (sorted_of h kv'.2) as [e|l] eqn:E.
  { by apply sorted_of_inl in E as ->. }
  apply elem_of_cons in Hin as [->|Hin]; [congruence|].
  by rewrite IH.
Qed.

(** A null start date is not a missing one: when a bucket gets two or more
    tickets and the start date of one of them is null (or a mapping), the
    sort compares it and the whole classification raises [TypeError]. *)
Theorem categorize_tickets_null_start_date
    (tickets : list loc) (h : heap) (k : string) (t : loc) :
  Forall (classifiable h) tickets →
  k ∈ status_keys →
  t ∈ tickets → in_bucket h k t = true →
  unorderable (start_date_key (h !!! t)) = true →
  (2 ≤ length (filter (in_bucket h k) tickets))%nat →
  categorize_tickets tickets h = (h, inl TypeError).
Proof.
  intros Hcl Hk Hin Hb Hu Hlen.
  rewrite categorize_tickets_run, foldM_categorize_classifiable by done.
  rewrite (sort_buckets_unorderable _ h (k, filter (in_bucket h k) tickets)); [done|..].
  - unfold placed, tickets_summary_init. simpl. unfold status_keys in Hk.
    repeat (apply elem_of_cons in Hk as [->|Hk]; [set_solver|]).
    by apply elem_of_nil in Hk.
  - simpl. apply (sorted_of_unorderable h _ t); [|done..].
    apply list_elem_of_filter. split; [by rewrite Hb|done].
Qed.

Lemma categorize_tickets_null_start_date_witness :
  categorize_tickets [20; 21]%nat heap3 = (heap3, inl TypeError).
Proof.
  apply (categorize_tickets_null_start_date [20; 21]%nat heap3 "open" 21%nat).
  - repeat constructor; vm_compute; eauto.
  - by left.
  - set_solver.
  - reflexivity.
  - reflexivity.
  - vm_compute. lia.
Defined.

(** * Properties of [fetch_audit_logs] *)

(** ** The order of dates *)

Lemma timedelta_compare_refl xs : timedelta.compare xs xs = Eq.
Proof. induction xs as [|x xs IH]; simpl; [done|]. by rewrite Nat.compare_refl. Qed.

Lemma timedelta_compare_trans xs ys zs :
  timedelta.compare xs ys ≠ Lt → timedelta.compare ys zs ≠ Lt →
  timedelta.compare xs zs ≠ Lt.
Proof.
  revert ys zs. induction xs as [|x xs IH]; intros [|y ys] [|z zs]; simpl; try done.
  destruct (Nat.compare_spec x y), (Nat.compare_spec y z), (Nat.compare_spec x z);
    try done; try lia; eauto.
Qed.

Lemma timedelta_ge_refl a : timedelta.ge a a = true.
Proof. unfold timedelta.ge. by rewrite timedelta_compare_refl. Qed.

Lemma timedelta_ge_trans a b c :
  timedelta.ge a b = true → timedelta.ge b c = true → timedelta.ge a c = true.
Proof.
  unfold timedelta.ge. intros Hab Hbc.
  pose proof (timedelta_compare_trans (timedelta.fields a) (timedelta.fields b)
                (timedelta.fields c)) as H.
  destruct (timedelta.compare (timedelta.fields a) (timedelta.fields b)),
    (timedelta.compare (timedelta.fields b) (timedelta.fields c)),
    (timedelta.compare (timedelta.fields a) (timedelta.fields c));
    try done; exfalso; by apply H.
Qed.

Lemma timedelta_yesterday_ge d d' :
  timedelta.yesterday d = Some d' → timedelta.ge d d' = true.
Proof.
  unfold timedelta.yesterday, timedelta.ge. destruct d as [y m dd H M S f]. simpl.
  repeat case_match; try done; intros [= <-]; simpl in *;
    repeat match goal with
    | H : (_ <? _)%nat = true |- _ => apply Nat.ltb_lt in H
    | H : (_ <? _)%nat = false |- _ => apply Nat.ltb_ge in H
    end.
  all: repeat match goal with
    | H : context [(?a ?= ?b)%nat] |- _ => destruct (Nat.compare_spec a b); try lia
    end; try done.
Qed.

Lemma timedelta_minus_days_ge d n s :
  timedelta.minus_days d n = Some s → timedelta.ge d s = true.
Proof.
  revert d. induction n as [|n IH]; intros d; simpl.
  - intros [= <-]. apply timedelta_ge_refl.
  - destruct (timedelta.yesterday d) as [d'|] eqn:Hy; [|done]. intros Hs.
    eapply timedelta_ge_trans; [by apply timedelta_yesterday_ge|by apply IH].
Qed.

Lemma timedelta_minus_days_add d n k :
  timedelta.minus_days d (n + k) =
  timedelta.minus_days d n ≫= λ d', timedelta.minus_days d' k.
Proof.
  revert d. induction n as [|n IH]; intros d; simpl; [done|].
  destruct (timedelta.yesterday d); simpl; [apply IH|done].
Qed.

(** A wider window starts earlier. *)
Lemma timedelta_minus_days_mono now days days' s s' :
  (days ≤ days')%nat →
  timedelta.minus_days now days = Some s →
  timedelta.minus_days now days' = Some s' →
  timedelta.ge s s' = true.
Proof.
  intros Hle Hs Hs'. replace days' with (days + (days' - days))%nat in Hs' by lia.
  rewrite timedelta_minus_days_add, Hs in Hs'. simpl in Hs'.
  by eapply timedelta_minus_days_ge.
Qed.

(** ** The rows of one response *)

Lemma created_at_of_dict d dt :
  created_at_of (VDict d) = inr dt →
  ∃ s, dict_get "created_at" d = Some (VStr s) ∧ datetime.strptime s = inr dt.
Proof.
  simpl. destruct (dict_get "created_at" d) as [[]|]; try done. eauto.
Qed.

Lemma created_at_of_inl log e :
  created_at_of log = inl e → e ∈ [KeyError "created_at"; TypeError; ValueError].
Proof.
  destruct log; simpl; try (intros [= <-]; set_solver).
  destruct (dict_get "created_at" kvs) as [[]|]; try (intros [= <-]; set_solver).
  intros ->%datetime_strptime_inl. set_solver.
Qed.

Lemma in_window_created_at start_date log :
  in_window start_date log = true →
  ∃ s dt, dict_get "created_at" log = Some (VStr s) ∧
          datetime.strptime s = inr dt ∧ timedelta.ge dt start_date = true.
Proof.
  unfold in_window. destruct (created_at_of (VDict log)) as [|dt] eqn:E; [done|].
  apply created_at_of_dict in E as (s & ? & ?). eauto.
Qed.

Lemma recent_rows_in_window start_date logs r :
  recent_rows start_date logs = inr r →
  Forall (λ log, in_window start_date log = true) r.
Proof.
  revert r. induction logs as [|log logs IH]; intros r; simpl.
  { by intros [= <-]. }
  destruct log as [| | | | |d]; try done.
  destruct (created_at_of (VDict d)) as [|dt] eqn:E; [done|].
  destruct (recent_rows start_date logs) as [|r']; [done|].
  destruct (timedelta.ge dt start_date) eqn:Hge; intros [= <-]; [|by apply IH].
  constructor; [|by apply IH]. unfold in_window. by rewrite E.
Qed.

Lemma recent_rows_inl start_date logs e :
  recent_rows start_date logs = inl e →
  e ∈ [KeyError "created_at"; TypeError; ValueError].
Proof.
  induction logs as [|log logs IH]; simpl; [done|].
  destruct log as [| | | | |d]; try (intros [= <-]; set_solver).
  destruct (created_at_of (VDict d)) as [e'|dt] eqn:E.
  { intros [= <-]. by eapply created_at_of_inl. }
  destruct (recent_rows start_date logs); [|done]. intros [= <-]. by apply IH.
Qed.

Lemma recent_of_in_window start_date body r :
  recent_of start_date body = inr r →
  Forall (λ log, in_window start_date log = true) r.
Proof.
  unfold recent_of. destruct (rows body); [done|]. destruct (iter _); [done|].
  apply recent_rows_in_window.
Qed.

Lemma recent_of_inl start_date body e :
  recent_of start_date body = inl e →
  e ∈ [KeyError "created_at"; TypeError; AttributeError; ValueError].
Proof.
  unfold recent_of. destruct (rows body) as [e'|v] eqn:Hr.
  { destruct body; simplify_eq/=; intros [= <-]; set_solver. }
  destruct (iter v) as [e'|logs] eqn:Hi.
  { destruct v; simplify_eq/=; intros [= <-]; set_solver. }
  intros He. apply recent_rows_inl in He. revert He. rewrite !elem_of_cons. tauto.
Qed.

(** With a later start the rows are those of the earlier start that are in
    the later window, and the failures are the same. *)
Lemma recent_rows_window s s' logs :
  timedelta.ge s s' = true →
  recent_rows s logs = sum_map id (filter (in_window s)) (recent_rows s' logs).
Proof.
  intros Hss. induction logs as [|log logs IH]; simpl; [done|].
  destruct log as [| | | | |d]; try done.
  destruct (created_at_of (VDict d)) as [|dt] eqn:E; [done|]. rewrite IH.
  destruct (recent_rows s' logs) as [|r]; simpl; [done|]. f_equal.
  destruct (timedelta.ge dt s') eqn:Hs'.
  - assert (in_window s d = timedelta.ge dt s) as Hw.
    { unfold in_window. by rewrite E. }
    rewrite filter_cons. case_decide as Hd; rewrite Hw in Hd;
      by destruct (timedelta.ge dt s).
  - destruct (timedelta.ge dt s) eqn:Hs; [|done].
    by rewrite (timedelta_ge_trans dt s s') in Hs'.
Qed.

Lemma recent_of_window s s' body :
  timedelta.ge s s' = true →
  recent_of s body = sum_map id (filter (in_window s)) (recent_of s' body).
Proof.
  intros Hss. unfold recent_of. destruct (rows body); [done|].
  destruct (iter _); [done|]. by apply recent_rows_window.
Qed.

(** ** The loop over the auditable ids *)

Lemma fetch_loop_acc {net} (requests_get : value → net → net * response)
    start_date acc auditable_ids n :
  fetch_loop requests_get start_date acc auditable_ids n =
  ((fetch_loop requests_get start_date [] auditable_ids n).1,
   sum_map id (acc ++.) (fetch_loop requests_get start_date [] auditable_ids n).2).
Proof.
  revert acc n. induction auditable_ids as [|i ids IH]; intros acc n; simpl.
  { by rewrite app_nil_r. }
  destruct (requests_get i n) as [n' [|body]]; [done|].
  destruct (recent_of start_date body) as [|logs]; [done|].
  rewrite (IH (acc ++ logs)), (IH logs).
  destruct (fetch_loop requests_get start_date [] ids n').2; simpl; [done|].
  by rewrite app_assoc.
Qed.

Lemma fetch_loop_app {net} (requests_get : value → net → net * response)
    start_date acc pre post n :
  fetch_loop requests_get start_date acc (pre ++ post) n =
  match fetch_loop requests_get start_date acc pre n with
  | (n1, inr acc') => fetch_loop requests_get start_date acc' post n1
  | r => r
  end.
Proof.
  revert acc n. induction pre as [|i pre IH]; intros acc n; simpl; [done|].
  destruct (requests_get i n) as [n' [|body]]; [done|].
  destruct (recent_of start_date body) as [|logs]; [done|]. apply IH.
Qed.

Lemma fetch_loop_inr {net} (requests_get : value → net → net * response)
    start_date auditable_ids n n' logs :
  fetch_loop requests_get start_date [] auditable_ids n = (n', inr logs) →
  ∃ bodies ls,
    responses requests_get auditable_ids n = Json <$> bodies ∧
    Forall2 (λ body l, recent_of start_date body = inr l) bodies ls ∧
    logs = concat ls.
Proof.
  revert n logs. induction auditable_ids as [|i ids IH]; intros n logs; simpl.
  { intros [= _ <-]. by exists [], []. }
  destruct (requests_get i n) as [n1 [|body]]; [done|]. simpl.
  destruct (recent_of start_date body) as [|l] eqn:Hl; [done|].
  rewrite fetch_loop_acc.
  destruct (fetch_loop requests_get start_date [] ids n1) as [n2 [|r]] eqn:E; [done|].
  simpl. intros [= -> <-].
  destruct (IH _ _ E) as (bodies & ls & -> & Hall & ->).
  exists (body :: bodies), (l :: ls). split; [done|]. split; [by constructor|].
  done.
Qed.

Lemma fetch_loop_complete {net} (requests_get : value → net → net * response)
    start_date auditable_ids n bodies ls :
  responses requests_get auditable_ids n = Json <$> bodies →
  Forall2 (λ body l, recent_of start_date body = inr l) bodies ls →
  (fetch_loop requests_get start_date [] auditable_ids n).2 = inr (concat ls).
Proof.
  intros Hr Hall. revert auditable_ids n Hr.
  induction Hall as [|body l bodies ls Hl _ IH]; intros [|i ids] n; simpl; try done.
  destruct (requests_get i n) as [n1 r]. simpl. intros [= -> Hr].
  rewrite Hl, fetch_loop_acc. simpl. by rewrite (IH _ _ Hr).
Qed.

Lemma fetch_loop_inl {net} (requests_get : value → net → net * response)
    start_date acc auditable_ids n n' e :
  fetch_loop requests_get start_date acc auditable_ids n = (n', inl e) →
  (e = RequestException ∧ Failed ∈ responses requests_get auditable_ids n) ∨
  ∃ e', e = Builtin e' ∧
        e' ∈ [KeyError "created_at"; TypeError; AttributeError; ValueError].
Proof.
  revert acc n. induction auditable_ids as [|i ids IH]; intros acc n; simpl; [done|].
  destruct (requests_get i n) as [n1 [|body]]; simpl.
  { intros [= _ <-]. left. split; [done|]. by left. }
  destruct (recent_of start_date body) as [e'|l] eqn:Hl.
  { intros [= _ <-]. right. exists e'. split; [done|]. by eapply recent_of_inl. }
  intros [[-> Hin]|?]%IH; [left|by right]. split; [done|]. by right.
Qed.

Lemma fetch_loop_window {net} (requests_get : value → net → net * response)
    s s' acc auditable_ids n :
  timedelta.ge s s' = true →
  fetch_loop requests_get s (filter (in_window s) acc) auditable_ids n =
  ((fetch_loop requests_get s' acc auditable_ids n).1,
   sum_map id (filter (in_window s)) (fetch_loop requests_get s' acc auditable_ids n).2).
Proof.
  intros Hss. revert acc n.
  induction auditable_ids as [|i ids IH]; intros acc n; simpl; [done|].
  destruct (requests_get i n) as [n1 [|body]]; [done|].
  rewrite (recent_of_window s s') by done.
  destruct (recent_of s' body) as [|l]; simpl; [done|].
  by rewrite <-filter_app, IH.
Qed.

(** ** The fetch as a whole *)

(** All or nothing: a list returned by [fetch_audit_logs] is empty because a
    request failed, or holds the rows in the window of every response, in
    the order of the auditable ids; it is never a part of the audit log. *)
Theorem fetch_audit_logs_all_or_nothing
    (net : Type) (requests_get : value → net → net * response)
    (now : datetime.t) (days : nat) (auditable_ids : list value) (n n' : net)
    (logs : list dict) :
  fetch_audit_logs requests_get now days auditable_ids n = (n', inr logs) →
  (Failed ∈ responses requests_get auditable_ids n ∧ logs = []) ∨
  ∃ start_date bodies ls,
    timedelta.minus_days now days = Some start_date ∧
    responses requests_get auditable_ids n = Json <$> bodies ∧
    Forall2 (λ body l, recent_of start_date body = inr l) bodies ls ∧
    logs = concat ls.
Proof.
  unfold fetch_audit_logs.
  destruct (timedelta.minus_days now days) as [start_date|]; [|done].
  destruct (fetch_loop requests_get start_date [] auditable_ids n)
    as [n1 [e|r]] eqn:E.
  - destruct e; try done. intros [= _ <-]. left.
    by apply fetch_loop_inl in E as [[_ ?]|(? & [=] & _)].
  - intros [= _ <-]. right. exists start_date.
    apply fetch_loop_inr in E as (bodies & ls & ?). by exists bodies, ls.
Qed.

Lemma fetch_audit_logs_all_or_nothing_witness :
  (Failed ∈ responses replay [VInt 58; VInt 59]
              [Json (body_of [log58]); Json (body_of [log59_old; log59])]
   ∧ [log58; log59] = []) ∨
  ∃ start_date bodies ls,
    timedelta.minus_days now0 5 = Some start_date ∧
    responses replay [VInt 58; VInt 59]
      [Json (body_of [log58]); Json (body_of [log59_old; log59])]
    = Json <$> bodies ∧
    Forall2 (λ body l, recent_of start_date body = inr l) bodies ls ∧
    [log58; log59] = concat ls.
Proof.
  apply (fetch_audit_logs_all_or_nothing _ replay now0 5 [VInt 58; VInt 59]
           [Json (body_of [log58]); Json (body_of [log59_old; log59])] []).
  vm_compute. reflexivity.
Defined.

(** A failed request throws away what the earlier requests have brought:
    the call returns the empty list, and asks for no further id. *)
Theorem fetch_audit_logs_request_failure
    (net : Type) (requests_get : value → net → net * response)
    (now start_date : datetime.t) (days : nat) (pre post : list value) (i : value)
    (collected : list dict) (n n1 n2 : net) :
  timedelta.minus_days now days = Some start_date →
  fetch_loop requests_get start_date [] pre n = (n1, inr collected) →
  requests_get i n1 = (n2, Failed) →
  fetch_audit_logs requests_get now days (pre ++ i :: post) n = (n2, inr []).
Proof.
  intros Hs Hpre Hi. unfold fetch_audit_logs.
  rewrite Hs, fetch_loop_app, Hpre. simpl. by rewrite Hi.
Qed.

Lemma fetch_audit_logs_request_failure_witness :
  fetch_audit_logs replay now0 5 ([VInt 58] ++ VInt 59 :: [VInt 60])
    [Json (body_of [log58]); Failed; Json (body_of [log59])]
  = ([Json (body_of [log59])], inr []).
Proof.
  apply (fetch_audit_logs_request_failure _ replay now0
           (datetime.mk 2024 11 17 12 0 0 0) 5 [VInt 58] [VInt 60] (VInt 59) [log58]
           _ [Failed; Json (body_of [log59])]).
  - reflexivity.
  - vm_compute. reflexivity.
  - reflexivity.
Defined.

(** When every request is answered and every row of every answer carries a
    timestamp in the format, the call returns the rows in the window. *)
Theorem fetch_audit_logs_returns
    (net : Type) (requests_get : value → net → net * response)
    (now start_date : datetime.t) (days : nat) (auditable_ids : list value)
    (n : net) (bodies : list value) (ls : list (list dict)) :
  timedelta.minus_days now days = Some start_date →
  responses requests_get auditable_ids n = Json <$> bodies →
  Forall2 (λ body l, recent_of start_date body = inr l) bodies ls →
  (fetch_audit_logs requests_get now days auditable_ids n).2 = inr (concat ls).
Proof.
  intros Hs Hr Hall. unfold fetch_audit_logs. rewrite Hs.
  pose proof (fetch_loop_complete requests_get _ _ n _ _ Hr Hall) as Hc.
  destruct (fetch_loop requests_get start_date [] auditable_ids n) as [n1 r].
  simpl in Hc. by subst r.
Qed.

Lemma fetch_audit_logs_returns_witness :
  (fetch_audit_logs replay now0 5 [VInt 58; VInt 59]
     [Json (body_of [log58]); Json (body_of [log59_old; log59])]).2
  = inr (concat [[log58]; [log59]]).
Proof.
  apply (fetch_audit_logs_returns _ replay now0 (datetime.mk 2024 11 17 12 0 0 0) 5
           [VInt 58; VInt 59] _ [body_of [log58]; body_of [log59_old; log59]]).
  - reflexivity.
  - reflexivity.
  - repeat constructor.
Defined.

Lemma fetch_audit_logs_inr {net} (requests_get : value → net → net * response)
    now days auditable_ids n n' logs :
  fetch_audit_logs requests_get now days auditable_ids n = (n', inr logs) →
  ∃ start_date,
    timedelta.minus_days now days = Some start_date ∧
    Forall (λ log, in_window start_date log = true) logs.
Proof.
  intros Hf. unfold fetch_audit_logs in Hf.
  destruct (timedelta.minus_days now days) as [start_date|] eqn:Hs; [|done].
  exists start_date. split; [done|].
  destruct (fetch_loop requests_get start_date [] auditable_ids n)
    as [n1 [e|r]] eqn:E.
  { destruct e; try done. by injection Hf as _ <-. }
  injection Hf as _ <-.
  apply fetch_loop_inr in E as (bodies & ls & _ & Hall & ->).
  apply Forall_concat. clear -Hall.
  induction Hall as [|body l bodies ls Hl _ IH]; constructor; [|done].
  by eapply recent_of_in_window.
Qed.

(** Every entry that is returned carries a [created_at] string that parses,
    to a date at or after the start of the window, which is not after the
    clock reading. *)
Theorem fetch_audit_logs_in_window
    (net : Type) (requests_get : value → net → net * response)
    (now : datetime.t) (days : nat) (auditable_ids : list value) (n n' : net)
    (logs : list dict) :
  fetch_audit_logs requests_get now days auditable_ids n = (n', inr logs) →
  ∃ start_date,
    timedelta.minus_days now days = Some start_date ∧
    timedelta.ge now start_date = true ∧
    Forall (λ log, ∃ s dt, dict_get "created_at" log = Some (VStr s) ∧
                           datetime.strptime s = inr dt ∧
                           timedelta.ge dt start_date = true) logs.
Proof.
  intros (start_date & Hs & Hall)%fetch_audit_logs_inr.
  exists start_date. split; [done|]. split; [by eapply timedelta_minus_days_ge|].
  eapply Forall_impl; [done|]. intros log. apply in_window_created_at.
Qed.

Lemma fetch_audit_logs_in_window_witness :
  ∃ start_date,
    timedelta.minus_days now0 5 = Some start_date ∧
    timedelta.ge now0 start_date = true ∧
    Forall (λ log, ∃ s dt, dict_get "created_at" log = Some (VStr s) ∧
                           datetime.strptime s = inr dt ∧
                           timedelta.ge dt start_date = true) [log58; log59].
Proof.
  apply (fetch_audit_logs_in_window _ replay now0 5 [VInt 58; VInt 59]
           [Json (body_of [log58]); Json (body_of [log59_old; log59])] []).
  vm_compute. reflexivity.
Defined.

(** The reconciler after the fetch: on a fetched audit log no timestamp can
    fail it, since the fetch has parsed them all; what it can still raise
    comes from the other fields of an entry. *)
Theorem get_recent_done_tickets_of_fetched
    (net : Type) (requests_get : value → net → net * response)
    (now : datetime.t) (days : nat) (auditable_ids : list value) (n n' : net)
    (audit_logs : list dict) (tickets : list loc) (h h' : heap) (e : exn) :
  fetch_audit_logs requests_get now days auditable_ids n = (n', inr audit_logs) →
  get_recent_done_tickets audit_logs tickets h = (h', inl e) →
  e ∈ [KeyError "action"; KeyError "changes"; KeyError "auditable_id";
       KeyError "id"; AttributeError].
Proof.
  intros (start_date & _ & Hall)%fetch_audit_logs_inr.
  rewrite get_recent_done_tickets_plan.
  destruct (plan h tickets audit_logs).2 as [e'|] eqn:Hp; [|done]. intros [= _ ->].
  apply plan_error in Hp as (log & Hin & Hs).
  rewrite Forall_forall in Hall.
  destruct (in_window_created_at _ _ (Hall log Hin)) as (s & dt & Hc & Hd & _).
  unfold step_of in Hs. rewrite Hc in Hs. simpl in Hs. unfold lift in Hs.
  rewrite Hd in Hs. simpl in Hs.
  destruct (marks_done log h).2 as [e'|[|]] eqn:Hm; [| |done].
  { injection Hs as ->. apply marks_done_inl in Hm as [->|[->| ->]]; set_solver. }
  destruct (dict_get "auditable_id" log); [|injection Hs as <-; set_solver].
  destruct (find_ticket _ _ h).2 as [e'|[t|]] eqn:Hf; [|done..].
  injection Hs as ->. apply find_ticket_inl in Hf as ->. set_solver.
Qed.

Lemma get_recent_done_tickets_of_fetched_witness :
  AttributeError ∈ [KeyError "action"; KeyError "changes"; KeyError "auditable_id";
                    KeyError "id"; AttributeError].
Proof.
  apply (get_recent_done_tickets_of_fetched _ replay now0 5 [VInt 59]
           [Json (body_of [log59; log_null_status])] []
           [log59; log_null_status] [0; 1]%nat heap0
           (<[1%nat := dict_set "completion_date" (VStr "2024-11-20 10:00:00") ticket59]> heap0)).
  - vm_compute. reflexivity.
  - vm_compute. reflexivity.
Defined.

(** A narrower window gives the entries of the wider one that fall in it,
    makes the same requests and fails in the same way. *)
Theorem fetch_audit_logs_wider_window
    (net : Type) (requests_get : value → net → net * response)
    (now start_date : datetime.t) (days days' : nat) (auditable_ids : list value)
    (n : net) :
  (days ≤ days')%nat →
  timedelta.minus_days now days = Some start_date →
  is_Some (timedelta.minus_days now days') →
  fetch_audit_logs requests_get now days auditable_ids n =
  ((fetch_audit_logs requests_get now days' auditable_ids n).1,
   sum_map id (filter (in_window start_date))
     (fetch_audit_logs requests_get now days' auditable_ids n).2).
Proof.
  intros Hle Hs [s' Hs']. unfold fetch_audit_logs. rewrite Hs, Hs'.
  pose proof (timedelta_minus_days_mono _ _ _ _ _ Hle Hs Hs') as Hge.
  pose proof (fetch_loop_window requests_get _ _ [] auditable_ids n Hge) as Hw.
  rewrite filter_nil in Hw. rewrite Hw.
  destruct (fetch_loop requests_get s' [] auditable_ids n) as [n1 [[]|r]]; done.
Qed.

Lemma fetch_audit_logs_wider_window_witness :
  fetch_audit_logs replay now0 5 [VInt 59] [Json (body_of [log59_old; log59])] =
  ((fetch_audit_logs replay now0 30 [VInt 59] [Json (body_of [log59_old; log59])]).1,
   sum_map id (filter (in_window (datetime.mk 2024 11 17 12 0 0 0)))
     (fetch_audit_logs replay now0 30 [VInt 59] [Json (body_of [log59_old; log59])]).2).
Proof.
  apply (fetch_audit_logs_wider_window _ replay now0).
  - lia.
  - reflexivity.
  - vm_compute. eauto.
Defined.

(** The exceptions of the fetch: a failed request is never one of them; a
    window that starts before the year 1 raises [OverflowError] before any
    request; the rest come from the shape of a response. *)
Theorem fetch_audit_logs_exceptions
    (net : Type) (requests_get : value → net → net * response)
    (now : datetime.t) (days : nat) (auditable_ids : list value) (n n' : net)
    (e : fetch_exn) :
  fetch_audit_logs requests_get now days auditable_ids n = (n', inl e) →
  (e = OverflowError ∧ n' = n ∧ timedelta.minus_days now days = None) ∨
  ∃ e', e = Builtin e' ∧
        e' ∈ [KeyError "created_at"; TypeError; AttributeError; ValueError].
Proof.
  unfold fetch_audit_logs.
  destruct (timedelta.minus_days now days) as [start_date|]; [|intros [= <- <-]; by left].
  destruct (fetch_loop requests_get start_date [] auditable_ids n)
    as [n1 [e1|r]] eqn:E; [|done].
  apply fetch_loop_inl in E as [[-> _]|(e' & -> & He')]; [done|].
  intros [= _ <-]. right. eauto.
Qed.

Lemma fetch_audit_logs_exceptions_witness :
  (Builtin ValueError = OverflowError ∧
   [] = [Json (body_of [log59; log59_malformed])] ∧
   timedelta.minus_days now0 5 = None) ∨
  ∃ e', Builtin ValueError = Builtin e' ∧
        e' ∈ [KeyError "created_at"; TypeError; AttributeError; ValueError].
Proof.
  apply (fetch_audit_logs_exceptions _ replay now0 5 [VInt 59]
           [Json (body_of [log59; log59_malformed])] []).
  vm_compute. reflexivity.
Defined.

(** * Properties of the handlers' use of the event *)

Lemma str_split_nonempty sep s : str_split sep s ≠ [].
Proof. destruct s as [|c s]; simpl; [done|]. by repeat case_match. Qed.

Lemma str_split_join sep s :
  String.concat (String sep EmptyString) (str_split sep s) = s.
Proof.
  induction s as [|c s IH]; simpl; [done|].
  pose proof (str_split_nonempty sep s) as Hne.
  destruct (Ascii.eqb_spec c sep) as [->|Hc].
  - destruct (str_split sep s) as [|p ps]; [done|]. simpl in *. by rewrite IH.
  - destruct (str_split sep s) as [|p ps]; [done|].
    destruct ps; simpl in *; by rewrite <-IH.
Qed.

Lemma str_split_no_sep sep s :
  Forall (λ p, sep ∉ list_ascii_of_string p) (str_split sep s).
Proof.
  induction s as [|c s IH]; simpl.
  { constructor; [|done]. simpl. apply not_elem_of_nil. }
  destruct (Ascii.eqb_spec c sep) as [->|Hc].
  - constructor; [|done]. simpl. apply not_elem_of_nil.
  - destruct (str_split sep s) as [|p ps].
    + constructor; [|done]. simpl. by intros [->|[]%elem_of_nil]%elem_of_cons.
    + apply Forall_cons in IH as [Hp Hps]. constructor; [|done]. simpl.
      by intros [->|?]%elem_of_cons.
Qed.

Lemma handler_prelude_inr default event c :
  handler_prelude default event = inr c →
  ∃ s,
    event_get event "recipients" (default "recipients") = VStr s ∧
    truthy (event_get event "base_url" (default "base_url")) = true ∧
    truthy (event_get event "token" (default "token")) = true ∧
    c = ((event_get event "base_url" (default "base_url"),
          event_get event "token" (default "token")),
         smtp_settings (event_get event "host" (default "host"))
           (event_get event "port" (default "port"))
           (event_get event "sender" (default "sender"))
           (event_get event "user" (default "user"))
           (event_get event "passwd" (default "passwd")) (str_split "," s)).
Proof.
  unfold handler_prelude, CarrierClient_init.
  destruct (event_get event "recipients" _); try done. simpl.
  destruct (truthy (event_get event "base_url" _)); [|done].
  destruct (truthy (event_get event "token" _)); [|done].
  intros [= <-]. eauto.
Qed.

(** The check of [EmailNotifier.__init__] cannot fail in the handlers: the
    settings they build have the six keys whatever the event holds, a
    missing host or port being the value [None] under its key. *)
Theorem EmailNotifier_init_in_handlers
    (default : string → value) (event : dict) (carrier_client : value * value)
    (settings : dict) :
  handler_prelude default event = inr (carrier_client, settings) →
  EmailNotifier_init settings = inr settings.
Proof. by intros (s & _ & _ & _ & [= _ ->])%handler_prelude_inr. Qed.

Lemma EmailNotifier_init_in_handlers_witness :
  EmailNotifier_init
    (smtp_settings VNone VNone VNone VNone VNone ["a@example.com"; "b@example.com"])
  = inr (smtp_settings VNone VNone VNone VNone VNone ["a@example.com"; "b@example.com"]).
Proof.
  apply (EmailNotifier_init_in_handlers (λ _, VNone)
           [("recipients", VStr "a@example.com,b@example.com");
            ("base_url", VStr "https://api.example.com"); ("token", VStr "token")]
           (VStr "https://api.example.com", VStr "token")).
  reflexivity.
Defined.

(** The recipients: a handler that gets past its first lines has at least
    one recipient, none of them contains a comma, and joined by commas they
    are the string of the event (or its default). *)
Theorem handler_prelude_recipients
    (default : string → value) (event : dict) (carrier_client : value * value)
    (settings : dict) :
  handler_prelude default event = inr (carrier_client, settings) →
  ∃ recipients,
    dict_get "smtp_email_recipients" settings = Some (VList (VStr <$> recipients)) ∧
    recipients ≠ [] ∧
    Forall (λ r, ("," : ascii) ∉ list_ascii_of_string r) recipients ∧
    event_get event "recipients" (default "recipients")
    = VStr (String.concat "," recipients).
Proof.
  intros (s & Hr & _ & _ & [= _ ->])%handler_prelude_inr.
  exists (str_split "," s). split; [done|]. split; [apply str_split_nonempty|].
  split; [apply str_split_no_sep|]. by rewrite str_split_join.
Qed.

Lemma handler_prelude_recipients_witness :
  ∃ recipients,
    dict_get "smtp_email_recipients"
      (smtp_settings (VStr "smtp.example.com") (VInt 465) (VStr "sender@example.com")
         (VStr "user@example.com") (VStr "password") ["recipient@example.com"])
    = Some (VList (VStr <$> recipients)) ∧
    recipients ≠ [] ∧
    Forall (λ r, ("," : ascii) ∉ list_ascii_of_string r) recipients ∧
    event_get event0 "recipients" VNone = VStr (String.concat "," recipients).
Proof.
  apply (handler_prelude_recipients (λ _, VNone) event0
           (VStr "https://api.example.com", VStr "token")).
  reflexivity.
Defined.

Lemma event_get_default event k default v :
  event_get event k VNone = v → v ≠ VNone → event_get event k default = v.
Proof. unfold event_get. by destruct (dict_get k event). Qed.

Lemma smtp_settings_get k v host port sender user password host' port' sender' user'
    password' recipients :
  (host ≠ VNone → host' = host) → (port ≠ VNone → port' = port) →
  (sender ≠ VNone → sender' = sender) → (user ≠ VNone → user' = user) →
  (password ≠ VNone → password' = password) →
  dict_get k (smtp_settings host port sender user password recipients) = Some v →
  v ≠ VNone →
  dict_get k (smtp_settings host' port' sender' user' password' recipients) = Some v.
Proof.
  intros H1 H2 H3 H4 H5. unfold smtp_settings. cbn [dict_get].
  repeat (destruct (String.eqb _ k);
          [intros [= <-] Hv; f_equal; auto; fail|]).
  done.
Qed.

(** [lambda_handler] is the stricter of the two handlers: an event it takes
    is taken by [handler_local], with the same client and the same settings
    wherever they are not [None]. *)
Theorem lambda_handler_stricter
    (event : dict) (c : (value * value) * dict) :
  lambda_handler_prelude event = inr c →
  ∃ c', handler_local_prelude event = inr c' ∧ c'.1 = c.1 ∧
        ∀ k v, dict_get k c.2 = Some v → v ≠ VNone → dict_get k c'.2 = Some v.
Proof.
  intros (s & Hr & Hb & Ht & ->)%handler_prelude_inr.
  assert (∀ k v, event_get event k VNone = v → truthy v = true →
                 event_get event k (handler_local_defaults k) = v) as Hdef.
  { intros k v Hv Hv'. apply event_get_default; [done|]. by intros ->. }
  unfold handler_local_prelude, handler_prelude, CarrierClient_init.
  rewrite (event_get_default _ _ _ _ Hr) by done.
  rewrite (Hdef "base_url" _ eq_refl Hb), (Hdef "token" _ eq_refl Ht).
  cbn [py_split]. rewrite Hb, Ht. cbn [negb].
  eexists. split; [done|]. split; [done|]. cbn [fst snd]. intros k v.
  apply smtp_settings_get; intros ?; by apply event_get_default.
Qed.

Lemma lambda_handler_stricter_witness :
  ∃ c', handler_local_prelude event0 = inr c' ∧
        c'.1 = (VStr "https://api.example.com", VStr "token") ∧
        ∀ k v,
          dict_get k
            (smtp_settings (VStr "smtp.example.com") (VInt 465)
               (VStr "sender@example.com") (VStr "user@example.com")
               (VStr "password") ["recipient@example.com"]) = Some v →
          v ≠ VNone → dict_get k c'.2 = Some v.
Proof.
  apply (lambda_handler_stricter event0
           ((VStr "https://api.example.com", VStr "token"),
            smtp_settings (VStr "smtp.example.com") (VInt 465)
              (VStr "sender@example.com") (VStr "user@example.com")
              (VStr "password") ["recipient@example.com"])).
  reflexivity.
Defined.

(** An event without recipients stops [lambda_handler] with
    [AttributeError], before the client is made and whatever else the event
    lacks, while [handler_local] falls back on its default and cannot raise
    that. *)
Theorem lambda_handler_needs_recipients
    (event : dict) :
  dict_get "recipients" event = None →
  lambda_handler_prelude event = inl AttributeError ∧
  handler_local_prelude event ≠ inl AttributeError.
Proof.
  intros Hr. unfold lambda_handler_prelude, handler_local_prelude, handler_prelude,
    event_get. rewrite Hr. cbn [from_option py_split]. split; [done|].
  cbn. unfold CarrierClient_init.
  destruct (negb (truthy _)); [done|]. by destruct (negb (truthy _)).
Qed.

Lemma lambda_handler_needs_recipients_witness :
  lambda_handler_prelude [("host", VStr "smtp.example.com")] = inl AttributeError ∧
  handler_local_prelude [("host", VStr "smtp.example.com")] ≠ inl AttributeError.
Proof.
  apply (lambda_handler_needs_recipients [("host", VStr "smtp.example.com")]).
  reflexivity.
Defined.
